(** * Voice Scribe: the recording session and the transcript accumulator

    A shallow embedding of the React component [App] (both listings of
    [src/unnamed/part_000]) and of [src/types.ts].

    The component keeps four pieces of React state and four refs.  Every
    handler of the component is embedded as a computation in a small
    state-and-exception monad [Js] over that record; what the handler asks
    of the browser or of the transcription service is appended to a log of
    effects, and what the browser answers (the clock, a fresh UUID, the
    answer to a confirmation dialog, how a promise settles) is read from
    an environment record.  A handler runs from its first statement to its
    last without another handler in between: an [await] goes on at once
    when its promise is fulfilled, throws when it is rejected, and leaves
    the handler suspended for good when it never settles. *)

From Stdlib Require Import String Ascii ZArith NArith Bool Lia Floats List.
Import ListNotations.

(* ================================================================== *)
(** * JavaScript strings *)
(* ================================================================== *)

Module JsString.

(** A JavaScript string is a sequence of UTF-16 code units. *)
Definition code_unit := N.
Definition jsstring := list code_unit.

(** [if (s)]: a string is truthy unless it is empty. *)
Definition truthy (s : jsstring) : bool :=
  match s with
  | [] => false
  | _ :: _ => true
  end.

(** The code units [String.prototype.trim] strips: ECMAScript's
    WhiteSpace (TAB, VT, FF, SP, NBSP, ZWNBSP and the Unicode space
    separators) and LineTerminator (LF, CR, LS, PS). *)
Definition is_white_space (c : code_unit) : bool :=
  ((c =? 0x09) || (c =? 0x0A) || (c =? 0x0B) || (c =? 0x0C) || (c =? 0x0D)
   || (c =? 0x20) || (c =? 0xA0) || (c =? 0x1680)
   || ((0x2000 <=? c) && (c <=? 0x200A))
   || (c =? 0x2028) || (c =? 0x2029) || (c =? 0x202F) || (c =? 0x205F)
   || (c =? 0x3000) || (c =? 0xFEFF))%N.

Fixpoint trimStart (s : jsstring) : jsstring :=
  match s with
  | [] => []
  | c :: r => if is_white_space c then trimStart r else s
  end.

Definition trimEnd (s : jsstring) : jsstring := rev (trimStart (rev s)).

Definition trim (s : jsstring) : jsstring := trimEnd (trimStart s).

(** [Array.prototype.join]. *)
Fixpoint join (sep : jsstring) (l : list jsstring) : jsstring :=
  match l with
  | [] => []
  | [x] => x
  | x :: r => x ++ sep ++ join sep r
  end.

(** [s.replace(/\//g, '-')] and its like: every occurrence of one code
    unit replaced by another. *)
Definition replaceAll (from to : code_unit) (s : jsstring) : jsstring :=
  map (fun c => if (c =? from)%N then to else c) s.

(** ** Literals

    The source is UTF-8 text; a literal of the source is written here
    as the same UTF-8 bytes and decoded to the code units JavaScript
    holds (a surrogate pair for a code point above U+FFFF). *)
Fixpoint utf16_of_utf8 (bs : list N) : jsstring :=
  match bs with
  | [] => []
  | b0 :: r0 =>
    if (b0 <? 0x80)%N then b0 :: utf16_of_utf8 r0
    else
      match r0 with
      | [] => []
      | b1 :: r1 =>
        if (b0 <? 0xE0)%N then
          N.lor (N.shiftl (N.land b0 0x1F) 6) (N.land b1 0x3F)
            :: utf16_of_utf8 r1
        else
          match r1 with
          | [] => []
          | b2 :: r2 =>
            if (b0 <? 0xF0)%N then
              N.lor (N.shiftl (N.land b0 0x0F) 12)
                (N.lor (N.shiftl (N.land b1 0x3F) 6) (N.land b2 0x3F))
                :: utf16_of_utf8 r2
            else
              match r2 with
              | [] => []
              | b3 :: r3 =>
                let cp :=
                  N.lor (N.shiftl (N.land b0 0x07) 18)
                    (N.lor (N.shiftl (N.land b1 0x3F) 12)
                       (N.lor (N.shiftl (N.land b2 0x3F) 6)
                          (N.land b3 0x3F))) in
                let v := (cp - 0x10000)%N in
                (0xD800 + N.shiftr v 10)%N
                  :: (0xDC00 + N.land v 0x3FF)%N
                  :: utf16_of_utf8 r3
              end
          end
      end
  end.

Definition lit (s : string) : jsstring :=
  utf16_of_utf8 (map N_of_ascii (list_ascii_of_string s)).

(** A value that is a string or [undefined], as an optional property
    is; [to_string] is JavaScript's ToString on it, and [string_plus] is
    [prev + v] with [prev] a string. *)
Definition to_string (v : option jsstring) : jsstring :=
  match v with
  | Some s => s
  | None => lit "undefined"
  end.

Definition string_plus (prev : jsstring) (v : option jsstring) : jsstring :=
  prev ++ to_string v.

(** The double quote, kept out of the literals below. *)
Definition dq : jsstring := [0x22%N].
(** The line feed of a template literal that runs over several lines. *)
Definition nl : jsstring := [0x0A%N].

End JsString.

Import JsString.

(* ================================================================== *)
(** * [src/types.ts] *)
(* ================================================================== *)

Module Types.

Inductive SegmentType := user | model.

Record TranscriptionSegment := {
  id : jsstring;
  text : jsstring;
  timestamp : Z;
  type : SegmentType
}.

Inductive AppState := IDLE | CONNECTING | LISTENING | ERROR.

Definition AppState_eqb (a b : AppState) : bool :=
  match a, b with
  | IDLE, IDLE | CONNECTING, CONNECTING
  | LISTENING, LISTENING | ERROR, ERROR => true
  | _, _ => false
  end.

End Types.

Import Types.

(* ================================================================== *)
(** * [./services/audioUtils]: the PCM frame encoder *)
(* ================================================================== *)

Module AudioUtils.

Local Open Scope float_scope.

(** [createPcmBlob] is imported by the component from
    [./services/audioUtils], a file that is not among the sources.  The
    definitions of this module follow the contract section 4.1 of the
    spec gives it.  Samples are IEEE 754 numbers, here Rocq's primitive
    binary64 floats (every binary32 sample of a [Float32Array] is one of
    them). *)

(** Modelled from the spec: the clamping of [createPcmBlob] (the file
    [services/audioUtils] is missing), "out-of-range input clamped to the
    representable extremes before scaling". *)
Definition clamp (x : float) : float :=
  if x <? -1 then -1 else if 1 <? x then 1 else x.

(** Modelled from the spec: the scaling of [createPcmBlob] (missing),
    "scale factor 32767 for positive, 32768 for negative". *)
Definition scale (s : float) : float :=
  if s <? 0 then s * 32768 else s * 32767.

(** Modelled from the spec: the conversion of a scaled sample to an
    integer in [createPcmBlob] (missing).  The spec is silent on
    fractions; the integer part is kept, as a store into an [Int16Array]
    does. *)
Definition truncate (x : float) : Z :=
  match Prim2SF x with
  | S754_finite s m e =>
    let magnitude :=
      match e with
      | Z.neg k => Z.shiftr (Z.pos m) (Z.pos k)
      | _ => Z.shiftl (Z.pos m) e
      end in
    if s then (- magnitude)%Z else magnitude
  | _ => 0%Z
  end.

(** Modelled from the spec: the encoding of one sample by
    [createPcmBlob] (missing); "non-finite values should be treated as
    silence (zero)", every other sample is clamped, then scaled. *)
Definition encode_sample (x : float) : Z :=
  if is_finite x then truncate (scale (clamp x)) else 0%Z.

(** Modelled from the spec: the bytes [createPcmBlob] (missing) writes
    for one sample, "a little-endian signed 16-bit integer": two's
    complement, low byte first. *)
Definition int16_le (v : Z) : list Z :=
  let u := (v mod 65536)%Z in [(u mod 256)%Z; (u / 256)%Z].

(** Modelled from the spec: [createPcmBlob] (missing), "a binary buffer
    encoding each sample" of the block, in order. *)
Definition createPcmBlob (data : list float) : list Z :=
  flat_map (fun x => int16_le (encode_sample x)) data.

(** Reading a pair of bytes back as a signed 16-bit integer. *)
Definition int16_of_le (lo hi : Z) : Z :=
  let u := (lo + 256 * hi)%Z in
  if (u <? 32768)%Z then u else (u - 65536)%Z.

End AudioUtils.

(* ================================================================== *)
(** * The component [App] *)
(* ================================================================== *)

Module App.

(** [part_000] holds two listings of the component.  [Pro] is the first
    (lines 1-208, "Voice Scribe Pro"), [Scribe] the second (lines
    210-588, "B Voice Scribe").  Their handlers differ in the messages
    they show, in the capture constraints and buffer size, in the
    exported document and in what clear-all resets. *)
Inductive Edition := Pro | Scribe.

Definition MODEL_NAME : jsstring :=
  lit "gemini-2.5-flash-native-audio-preview-12-2025".
Definition SAMPLE_RATE : Z := 16000.

(** ** What the browser and the service hand out *)

(** How a promise settles; [Pending] is a promise that never does. *)
Inductive Settled (A : Type) :=
| Fulfilled (a : A)
| Rejected
| Pending.
Arguments Fulfilled {A} a.
Arguments Rejected {A}.
Arguments Pending {A}.

Record MediaStream := { stream_id : nat }.
(** An audio context, with how its [close()] will settle. *)
Record AudioContext := { context_id : nat; close_settles : Settled unit }.
Record Session := { session_id : nat }.
(** The promise [ai.live.connect] returns, with how it will settle. *)
Record SessionPromise := { promise_id : nat; settles : Settled Session }.
Record ScriptProcessorNode := { bufferSize : Z; context : AudioContext }.

Record MediaTrackConstraints := {
  echoCancellation : bool;
  noiseSuppression : bool;
  autoGainControl : bool;
  channelCount : option Z;
  sampleRate : option Z
}.

(** [LiveServerMessage], as far as [onmessage] reads it.  Every property
    the handler reads is optional: a transcription object may come
    without its [text], which the handler then reads as [undefined]. *)
Record Transcription := { transcription_text : option jsstring }.
Record LiveServerContent := {
  inputTranscription : option Transcription;
  turnComplete : option bool
}.
Record LiveServerMessage := { serverContent : option LiveServerContent }.

(** What one run of a handler is answered by its surroundings. *)
Record Browser := {
  Date_now : Z;
  randomUUID : jsstring;
  confirm : bool;
  toLocaleDateString : Z -> jsstring;
  toLocaleTimeString : Z -> jsstring;
  (** [new GoogleGenAI(...)]: [false] when the constructor throws. *)
  new_GoogleGenAI : bool;
  (** [navigator.mediaDevices.getUserMedia]: rejected on denial. *)
  getUserMedia : Settled MediaStream;
  (** [new AudioContext(...)]: [None] when the constructor throws. *)
  new_AudioContext : option AudioContext;
  (** [ai.live.connect(...)]: [None] when the call itself throws. *)
  live_connect : option SessionPromise
}.

(** ** What a handler asks of its surroundings *)

Inductive Effect :=
| GetUserMedia (constraints : MediaTrackConstraints)
| NewAudioContext (rate : Z)
| LiveConnect (model : jsstring) (stream : MediaStream) (ctx : AudioContext)
| ConnectProcessor (node : ScriptProcessorNode) (stream : MediaStream)
| Disconnect (node : ScriptProcessorNode)
| StopTracks (stream : MediaStream)
| CloseContext (ctx : AudioContext)
| CloseSession (session : Session)
| SendRealtimeInput (session : Session) (media : list Z)
| ConsoleError
| Alert (message : jsstring)
| Confirm (message : jsstring)
| ClipboardWriteText (data : jsstring)
| Download (filename : jsstring) (mime : jsstring) (parts : list jsstring).

(** ** The component's state: four [useState] cells, four refs *)

Record Hooks := {
  appState : AppState;
  transcriptions : list TranscriptionSegment;
  currentDraft : jsstring;
  errorMessage : option jsstring;
  audioContextRef : option AudioContext;
  streamRef : option MediaStream;
  sessionPromiseRef : option SessionPromise;
  scriptProcessorRef : option ScriptProcessorNode
}.

Definition initial : Hooks := {|
  appState := IDLE;
  transcriptions := [];
  currentDraft := [];
  errorMessage := None;
  audioContextRef := None;
  streamRef := None;
  sessionPromiseRef := None;
  scriptProcessorRef := None
|}.

Record World := { hooks : Hooks; effects : list Effect }.

(** ** The monad of handlers *)

(** A handler ends normally, by an exception, or stays suspended at an
    [await] whose promise never settles. *)
Inductive Completion (A : Type) :=
| Normal (a : A)
| Throw
| Suspend.
Arguments Normal {A} a.
Arguments Throw {A}.
Arguments Suspend {A}.

Definition Js (A : Type) : Type := World -> Completion A * World.

Definition ret {A} (a : A) : Js A := fun w => (Normal a, w).

Definition bind {A B} (m : Js A) (k : A -> Js B) : Js B :=
  fun w =>
    match m w with
    | (Normal a, w') => k a w'
    | (Throw, w') => (Throw, w')
    | (Suspend, w') => (Suspend, w')
    end.

Notation "x <- m ;; k" := (bind m (fun x => k))
  (at level 61, m at next level, right associativity).
Notation "m ;; k" := (bind m (fun _ => k))
  (at level 61, right associativity).

Definition throw {A} : Js A := fun w => (Throw, w).

(** [try { body } catch { handler }]. *)
Definition try_catch (body handler : Js unit) : Js unit :=
  fun w =>
    match body w with
    | (Throw, w') => handler w'
    | r => r
    end.

(** [await p]. *)
Definition await {A} (p : Settled A) : Js A :=
  fun w =>
    match p with
    | Fulfilled a => (Normal a, w)
    | Rejected => (Throw, w)
    | Pending => (Suspend, w)
    end.

(** A call of an async function whose promise the caller drops: what it
    did stays done, how it ended is not looked at. *)
Definition detached (m : Js unit) : Js unit :=
  fun w => (Normal tt, snd (m w)).

(** A constructor or call that may throw. *)
Definition returned {A} (r : option A) : Js A :=
  match r with
  | Some a => ret a
  | None => throw
  end.

Definition emit (e : Effect) : Js unit :=
  fun w => (Normal tt, {| hooks := hooks w; effects := effects w ++ [e] |}).

Definition read {A} (f : Hooks -> A) : Js A :=
  fun w => (Normal (f (hooks w)), w).

Definition update (f : Hooks -> Hooks) : Js unit :=
  fun w => (Normal tt, {| hooks := f (hooks w); effects := effects w |}).

Definition when (b : bool) (m : Js unit) : Js unit :=
  if b then m else ret tt.

(** The state a handler leaves, and what it asked for. *)
Definition exec {A} (m : Js A) (w : World) : World := snd (m w).
Definition completion {A} (m : Js A) (w : World) : Completion A := fst (m w).
Definition start (h : Hooks) : World := {| hooks := h; effects := [] |}.

(** ** Setters *)

Definition with_appState (v : AppState) (h : Hooks) : Hooks := {|
  appState := v;
  transcriptions := transcriptions h;
  currentDraft := currentDraft h;
  errorMessage := errorMessage h;
  audioContextRef := audioContextRef h;
  streamRef := streamRef h;
  sessionPromiseRef := sessionPromiseRef h;
  scriptProcessorRef := scriptProcessorRef h
|}.

Definition with_transcriptions (v : list TranscriptionSegment) (h : Hooks)
  : Hooks := {|
  appState := appState h;
  transcriptions := v;
  currentDraft := currentDraft h;
  errorMessage := errorMessage h;
  audioContextRef := audioContextRef h;
  streamRef := streamRef h;
  sessionPromiseRef := sessionPromiseRef h;
  scriptProcessorRef := scriptProcessorRef h
|}.

Definition with_currentDraft (v : jsstring) (h : Hooks) : Hooks := {|
  appState := appState h;
  transcriptions := transcriptions h;
  currentDraft := v;
  errorMessage := errorMessage h;
  audioContextRef := audioContextRef h;
  streamRef := streamRef h;
  sessionPromiseRef := sessionPromiseRef h;
  scriptProcessorRef := scriptProcessorRef h
|}.

Definition with_errorMessage (v : option jsstring) (h : Hooks) : Hooks := {|
  appState := appState h;
  transcriptions := transcriptions h;
  currentDraft := currentDraft h;
  errorMessage := v;
  audioContextRef := audioContextRef h;
  streamRef := streamRef h;
  sessionPromiseRef := sessionPromiseRef h;
  scriptProcessorRef := scriptProcessorRef h
|}.

Definition with_audioContextRef (v : option AudioContext) (h : Hooks)
  : Hooks := {|
  appState := appState h;
  transcriptions := transcriptions h;
  currentDraft := currentDraft h;
  errorMessage := errorMessage h;
  audioContextRef := v;
  streamRef := streamRef h;
  sessionPromiseRef := sessionPromiseRef h;
  scriptProcessorRef := scriptProcessorRef h
|}.

Definition with_streamRef (v : option MediaStream) (h : Hooks) : Hooks := {|
  appState := appState h;
  transcriptions := transcriptions h;
  currentDraft := currentDraft h;
  errorMessage := errorMessage h;
  audioContextRef := audioContextRef h;
  streamRef := v;
  sessionPromiseRef := sessionPromiseRef h;
  scriptProcessorRef := scriptProcessorRef h
|}.

Definition with_sessionPromiseRef (v : option SessionPromise) (h : Hooks)
  : Hooks := {|
  appState := appState h;
  transcriptions := transcriptions h;
  currentDraft := currentDraft h;
  errorMessage := errorMessage h;
  audioContextRef := audioContextRef h;
  streamRef := streamRef h;
  sessionPromiseRef := v;
  scriptProcessorRef := scriptProcessorRef h
|}.

Definition with_scriptProcessorRef (v : option ScriptProcessorNode)
  (h : Hooks) : Hooks := {|
  appState := appState h;
  transcriptions := transcriptions h;
  currentDraft := currentDraft h;
  errorMessage := errorMessage h;
  audioContextRef := audioContextRef h;
  streamRef := streamRef h;
  sessionPromiseRef := sessionPromiseRef h;
  scriptProcessorRef := v
|}.

Definition setAppState (v : AppState) : Js unit := update (with_appState v).
Definition setErrorMessage (v : option jsstring) : Js unit :=
  update (with_errorMessage v).

(** [setTranscriptions(list => f(list))]. *)
Definition setTranscriptions
  (f : list TranscriptionSegment -> list TranscriptionSegment) : Js unit :=
  update (fun h => with_transcriptions (f (transcriptions h)) h).

(** [setCurrentDraft(prev => ...)]: React runs the updater on the
    pending value, once for the update; what the updater itself sets
    (the turn-complete updater calls [setTranscriptions]) is set as
    well. *)
Definition setCurrentDraft (updater : jsstring -> Js jsstring) : Js unit :=
  prev <- read currentDraft ;;
  next <- updater prev ;;
  update (with_currentDraft next).

Definition setTranscriptions_value (v : list TranscriptionSegment)
  : Js unit := update (with_transcriptions v).
Definition setCurrentDraft_value (v : jsstring) : Js unit :=
  update (with_currentDraft v).

(** ** The messages shown to the user *)

Definition SESSION_MESSAGE (ed : Edition) : jsstring :=
  match ed with
  | Pro => lit "အမှားတစ်ခု ဖြစ်ပွားခဲ့ပါသည်။ ပြန်လည်စတင်ပေးပါ။"
  | Scribe =>
    lit "အမှားတစ်ခု ဖြစ်ပွားခဲ့သည်။ ကျေးဇူးပြု၍ ပြန်လည်ကြိုးစားပါ။"
  end.

Definition MICROPHONE_MESSAGE (ed : Edition) : jsstring :=
  match ed with
  | Pro => lit "မိုက်ခရိုဖုန်း အသုံးပြုခွင့် မရှိပါ။"
  | Scribe => lit "မိုက်ခရိုဖုန်း အသုံးပြုခွင့် မရပါ။"
  end.

Definition NOTHING_TO_SAVE (ed : Edition) : jsstring :=
  match ed with
  | Pro => lit "သိမ်းဆည်းရန် စာသားမရှိပါ။"
  | Scribe => lit "သိမ်းဆည်းရန် စာသားမရှိသေးပါ။"
  end.

Definition COPIED (ed : Edition) : jsstring :=
  match ed with
  | Pro => lit "Copied!"
  | Scribe => lit "စာသားများကို ကူးယူပြီးပါပြီ။"
  end.

Definition CLEAR_PROMPT (ed : Edition) : jsstring :=
  match ed with
  | Pro => lit "Clear all?"
  | Scribe => lit "မှတ်တမ်းအားလုံးကို ဖျက်လိုပါသလား?"
  end.

(** ** [stopSession] (lines 41-60 and 253-274, alike in both listings) *)

Definition stopSession : Js unit :=
  (node <- read scriptProcessorRef ;;
   match node with
   | Some n =>
     emit (Disconnect n) ;;
     update (with_scriptProcessorRef None)
   | None => ret tt
   end) ;;
  (stream <- read streamRef ;;
   match stream with
   | Some s =>
     emit (StopTracks s) ;;
     update (with_streamRef None)
   | None => ret tt
   end) ;;
  (ctx <- read audioContextRef ;;
   match ctx with
   | Some c =>
     emit (CloseContext c) ;;
     await (close_settles c) ;;
     update (with_audioContextRef None)
   | None => ret tt
   end) ;;
  (promise <- read sessionPromiseRef ;;
   match promise with
   | Some p =>
     session <- await (settles p) ;;
     emit (CloseSession session) ;;
     update (with_sessionPromiseRef None)
   | None => ret tt
   end) ;;
  setAppState IDLE.

(** ** [startSession] (lines 62-129 and 276-364) *)

Definition audio_constraints (ed : Edition) : MediaTrackConstraints :=
  match ed with
  | Pro => {|
      echoCancellation := true;
      noiseSuppression := true;
      autoGainControl := true;
      channelCount := Some 1%Z;
      sampleRate := Some SAMPLE_RATE
    |}
  | Scribe => {|
      echoCancellation := true;
      noiseSuppression := true;
      autoGainControl := true;
      channelCount := None;
      sampleRate := None
    |}
  end.

(** The [try] block.  [ai.live.connect] is called and its promise is
    stored; the promise is not awaited. *)
Definition startSession_try (ed : Edition) (env : Browser) : Js unit :=
  setAppState CONNECTING ;;
  setErrorMessage None ;;
  (if new_GoogleGenAI env then ret tt else throw) ;;
  emit (GetUserMedia (audio_constraints ed)) ;;
  stream <- await (getUserMedia env) ;;
  update (with_streamRef (Some stream)) ;;
  emit (NewAudioContext SAMPLE_RATE) ;;
  audioCtx <- returned (new_AudioContext env) ;;
  update (with_audioContextRef (Some audioCtx)) ;;
  emit (LiveConnect MODEL_NAME stream audioCtx) ;;
  sessionPromise <- returned (live_connect env) ;;
  update (with_sessionPromiseRef (Some sessionPromise)).

(** The [catch] block; the second listing logs the exception first. *)
Definition startSession_catch (ed : Edition) : Js unit :=
  match ed with
  | Pro => ret tt
  | Scribe => emit ConsoleError
  end ;;
  setErrorMessage (Some (MICROPHONE_MESSAGE ed)) ;;
  setAppState IDLE.

Definition startSession (ed : Edition) (env : Browser) : Js unit :=
  try_catch (startSession_try ed env) (startSession_catch ed).

(** ** The callbacks handed to [ai.live.connect]

    [onopen] closes over the [stream] and the [audioCtx] of the
    [startSession] that made it. *)

Definition buffer_size (ed : Edition) : Z :=
  match ed with
  | Pro => 4096
  | Scribe => 2048
  end.

Definition onopen (ed : Edition) (stream : MediaStream)
  (audioCtx : AudioContext) : Js unit :=
  setAppState LISTENING ;;
  let scriptProcessor :=
    {| bufferSize := buffer_size ed; context := audioCtx |} in
  update (with_scriptProcessorRef (Some scriptProcessor)) ;;
  emit (ConnectProcessor scriptProcessor stream).

(** [scriptProcessor.onaudioprocess]: the frame is sent by the [then]
    of the session promise, that is, when the promise is fulfilled. *)
Definition onaudioprocess (inputData : list float) : Js unit :=
  let pcmBlob := AudioUtils.createPcmBlob inputData in
  promise <- read sessionPromiseRef ;;
  match promise with
  | Some p =>
    match settles p with
    | Fulfilled session => emit (SendRealtimeInput session pcmBlob)
    | _ => ret tt
    end
  | None => ret tt
  end.

(** [message.serverContent?.inputTranscription] and
    [message.serverContent?.turnComplete]. *)
Definition inputTranscription_of (message : LiveServerMessage)
  : option Transcription :=
  match serverContent message with
  | Some c => inputTranscription c
  | None => None
  end.

Definition turnComplete_of (message : LiveServerMessage) : bool :=
  match serverContent message with
  | Some c =>
    match turnComplete c with
    | Some b => b
    | None => false
    end
  | None => false
  end.

(** [onmessage] (lines 96-110 and 317-340): its two [if]s, one after
    the other.  The second listing calls [prev.trim()] twice where the
    first names it [trimmed]. *)
Definition onmessage_inputTranscription (message : LiveServerMessage)
  : Js unit :=
  match inputTranscription_of message with
  | Some t =>
    let text := transcription_text t in
    setCurrentDraft (fun prev => ret (string_plus prev text))
  | None => ret tt
  end.

Definition onmessage_turnComplete (env : Browser)
  (message : LiveServerMessage) : Js unit :=
  when (turnComplete_of message)
    (setCurrentDraft (fun prev =>
       let trimmed := trim prev in
       when (truthy trimmed)
         (setTranscriptions (fun list =>
            list ++ [ {| id := randomUUID env;
                         text := trimmed;
                         timestamp := Date_now env;
                         type := user |} ])) ;;
       ret [])).

Definition onmessage (env : Browser) (message : LiveServerMessage)
  : Js unit :=
  onmessage_inputTranscription message ;;
  onmessage_turnComplete env message.

Definition onerror (ed : Edition) : Js unit :=
  emit ConsoleError ;;
  setErrorMessage (Some (SESSION_MESSAGE ed)) ;;
  detached stopSession.

Definition onclose : Js unit := setAppState IDLE.

(** ** The header's three buttons *)

(** Copy-all (line 154, and [copyAllText], lines 366-370). *)
Definition copyAllText (ed : Edition) : Js unit :=
  list <- read transcriptions ;;
  emit (ClipboardWriteText (join nl (map text list))) ;;
  emit (Alert (COPIED ed)).

(** Clear-all: the inline handler of line 156 in the first listing,
    [clearAll] (lines 421-426) in the second. *)
Definition clearAll (ed : Edition) (env : Browser) : Js unit :=
  emit (Confirm (CLEAR_PROMPT ed)) ;;
  when (confirm env)
    match ed with
    | Pro => setTranscriptions_value []
    | Scribe =>
      setTranscriptions_value [] ;;
      setCurrentDraft_value []
    end.

(** Export ([saveAsWord], lines 131-141 and 372-419). *)

Definition render_segment (ed : Edition) (env : Browser)
  (t : TranscriptionSegment) : jsstring :=
  match ed with
  | Pro =>
    concat
      [ lit "<p style=";
        dq;
        lit "font-family: 'Padauk', sans-serif; font-size: 16pt; ";
        lit "line-height: 2;";
        dq;
        lit ">";
        text t;
        lit "</p><p style=";
        dq;
        lit "font-size: 10pt; color: #888;";
        dq;
        lit ">🕑 ";
        toLocaleTimeString env (timestamp t);
        lit "</p><br>" ]
  | Scribe =>
    concat
      [ nl;
        lit "      <div style=";
        dq;
        lit "margin-bottom: 15px;";
        dq;
        lit ">";
        nl;
        lit "        <p style=";
        dq;
        lit "font-family: 'Padauk', sans-serif; font-size: 14pt; ";
        lit "color: #333; line-height: 1.6;";
        dq;
        lit ">";
        text t;
        lit "</p>";
        nl;
        lit "        <p style=";
        dq;
        lit "font-size: 8pt; color: #888;";
        dq;
        lit ">";
        toLocaleTimeString env (timestamp t);
        lit "</p>";
        nl;
        lit "      </div>";
        nl;
        lit "    " ]
  end.

Definition render_document (ed : Edition) (dateStr content : jsstring)
  : jsstring :=
  match ed with
  | Pro =>
    concat
      [ lit "<html><head><meta charset='utf-8'><style>@import url";
        lit "('https://fonts.googleapis.com/css2?family=Padauk&di";
        lit "splay=swap'); body { font-family: 'Padauk', sans-ser";
        lit "if; padding: 50px; }</style></head><body><h1 style=";
        dq;
        lit "color: #4f46e5;";
        dq;
        lit ">Burmese Voice Scribe Pro</h1>";
        content;
        lit "</body></html>" ]
  | Scribe =>
    concat
      [ nl;
        lit "      <html xmlns:o='urn:schemas-microsoft-com:offic";
        lit "e:office' xmlns:w='urn:schemas-microsoft-com:office:";
        lit "word' xmlns='http://www.w3.org/TR/REC-html40'>";
        nl;
        lit "      <head>";
        nl;
        lit "        <meta charset='utf-8'>";
        nl;
        lit "        <title>Myanmar Transcription - ";
        dateStr;
        lit "</title>";
        nl;
        lit "        <style>";
        nl;
        lit "          @import url('https://fonts.googleapis.com/";
        lit "css2?family=Padauk&display=swap');";
        nl;
        lit "          body { font-family: 'Padauk', 'Arial Unico";
        lit "de MS', sans-serif; }";
        nl;
        lit "        </style>";
        nl;
        lit "      </head>";
        nl;
        lit "      <body>";
        nl;
        lit "        <h1 style=";
        dq;
        lit "color: #4f46e5; text-align: center;";
        dq;
        lit ">နေ့စဉ် အသံဖမ်းမှတ်တမ်း</h1>";
        nl;
        lit "        <p style=";
        dq;
        lit "text-align: center; color: #666;";
        dq;
        lit ">ရက်စွဲ: ";
        dateStr;
        lit "</p>";
        nl;
        lit "        <hr/>";
        nl;
        lit "        <div style=";
        dq;
        lit "margin-top: 20px;";
        dq;
        lit ">";
        nl;
        lit "          ";
        content;
        nl;
        lit "        </div>";
        nl;
        lit "      </body>";
        nl;
        lit "      </html>";
        nl;
        lit "    " ]
  end.

Definition download_name (ed : Edition) (dateStr : jsstring) : jsstring :=
  match ed with
  | Pro =>
    concat [ lit "Myanmar_Transcription_"; dateStr; lit ".doc" ]
  | Scribe =>
    concat
      [ lit "Myanmar_Transcription_";
        replaceAll 0x2F%N 0x2D%N dateStr;
        lit ".doc" ]
  end.

Definition MSWORD : jsstring := lit "application/msword".
(** U+FEFF, the byte order mark the blob starts with. *)
Definition BOM : jsstring := [0xFEFF%N].

Definition saveAsWord (ed : Edition) (env : Browser) : Js unit :=
  list <- read transcriptions ;;
  if (length list =? 0)%nat then emit (Alert (NOTHING_TO_SAVE ed))
  else
    let dateStr := toLocaleDateString env (Date_now env) in
    let content := join [] (map (render_segment ed env) list) in
    let header := render_document ed dateStr content in
    emit (Download (download_name ed dateStr) MSWORD [BOM; header]).

(** ** The start/stop button (lines 193 and 530-532)

    [onClick] is [stopSession] while listening and [startSession]
    otherwise; the button is [disabled] while connecting, and a
    disabled button delivers no click. *)
Definition toggle_onClick (ed : Edition) (env : Browser) : Js unit :=
  s <- read appState ;;
  if AppState_eqb s CONNECTING then ret tt
  else if AppState_eqb s LISTENING then detached stopSession
  else detached (startSession ed env).

(** ** Everything that can happen to the component *)

Inductive Event :=
| ToggleClick
| CopyClick
| SaveClick
| ClearClick
| SessionOpen (stream : MediaStream) (audioCtx : AudioContext)
| SessionMessage (message : LiveServerMessage)
| SessionError
| SessionClose
| AudioProcess (inputData : list float).

Definition dispatch (ed : Edition) (env : Browser) (ev : Event) : Js unit :=
  match ev with
  | ToggleClick => toggle_onClick ed env
  | CopyClick => copyAllText ed
  | SaveClick => saveAsWord ed env
  | ClearClick => clearAll ed env
  | SessionOpen stream audioCtx => onopen ed stream audioCtx
  | SessionMessage message => onmessage env message
  | SessionError => onerror ed
  | SessionClose => onclose
  | AudioProcess inputData => onaudioprocess inputData
  end.

(** A run of the component: each event with what its handler is
    answered. *)
Fixpoint run (ed : Edition) (evs : list (Browser * Event)) (w : World)
  : World :=
  match evs with
  | [] => w
  | (env, ev) :: rest => run ed rest (exec (dispatch ed env ev) w)
  end.

End App.

Import App.

(* ================================================================== *)
(** * The vocabulary of the statements *)
(* ================================================================== *)

(** What a message appends to the draft: nothing when it has no
    [inputTranscription]; otherwise what [prev + text] adds, the
    transcription's [text], or the word [undefined] when the
    transcription has no [text]. *)
Definition fragment (message : LiveServerMessage) : jsstring :=
  match inputTranscription_of message with
  | Some t => to_string (transcription_text t)
  | None => []
  end.

(** The text a message carries, when it carries one. *)
Definition text_of (message : LiveServerMessage) : option jsstring :=
  match inputTranscription_of message with
  | Some t => transcription_text t
  | None => None
  end.

(** A partial-transcript event as the spec has it: the message has an
    [inputTranscription], with its [text], and does not complete the
    turn. *)
Definition partial_transcript (e : Browser * LiveServerMessage)
  (text : jsstring) : Prop :=
  text_of (snd e) = Some text /\ turnComplete_of (snd e) = false.

(** The segment a completed turn is logged as. *)
Definition segment_of (env : Browser) (draft : jsstring)
  : TranscriptionSegment :=
  {| id := randomUUID env;
     text := trim draft;
     timestamp := Date_now env;
     type := user |}.

(** A message event within a turn: one that does not complete it. *)
Definition within_turn (e : Browser * LiveServerMessage) : Prop :=
  turnComplete_of (snd e) = false.

Definition message_events (l : list (Browser * LiveServerMessage))
  : list (Browser * Event) :=
  map (fun e => (fst e, SessionMessage (snd e))) l.

Definition fulfilled {A} (p : Settled A) : bool :=
  match p with
  | Fulfilled _ => true
  | _ => false
  end.

(** Both of [stopSession]'s awaits succeed: closing the audio context
    the ref holds, and the session promise the ref holds. *)
Definition teardown_completes (h : Hooks) : bool :=
  match audioContextRef h with
  | Some c => fulfilled (close_settles c)
  | None => true
  end
  && match sessionPromiseRef h with
     | Some p => fulfilled (settles p)
     | None => true
     end.

(** The effects that open a capture or a session. *)
Definition acquires (e : Effect) : bool :=
  match e with
  | GetUserMedia _ | NewAudioContext _ | LiveConnect _ _ _ => true
  | _ => false
  end.

Definition acquisitions (w : World) : list Effect :=
  filter acquires (effects w).

Definition creates_file (e : Effect) : bool :=
  match e with
  | Download _ _ _ => true
  | _ => false
  end.

(** A failure the [try] block of [startSession] sees: the client or the
    audio context cannot be constructed, the microphone is refused, or
    the call of [ai.live.connect] itself throws. *)
Definition throws_in_start (env : Browser) : bool :=
  negb (new_GoogleGenAI env)
  || match getUserMedia env with
     | Rejected => true
     | Pending => false
     | Fulfilled _ =>
       match new_AudioContext env, live_connect env with
       | Some _, Some _ => false
       | _, _ => true
       end
     end.

Definition permission_denied (env : Browser) : bool :=
  match getUserMedia env with
  | Rejected => true
  | _ => false
  end.

(** The remote session fails to open: the call throws, or the promise it
    returned is rejected. *)
Definition session_open_fails (env : Browser) : bool :=
  match live_connect env with
  | None => true
  | Some p =>
    match settles p with
    | Rejected => true
    | _ => false
    end
  end.

(** How an event may move the session state from [s] to [s']. *)
Definition state_write (ev : Event) (s s' : AppState) : Prop :=
  match ev with
  | ToggleClick =>
    match s with
    | CONNECTING => s' = CONNECTING
    | LISTENING => s' = IDLE \/ s' = LISTENING
    | IDLE | ERROR => s' = CONNECTING \/ s' = IDLE
    end
  | SessionOpen _ _ => s' = LISTENING
  | SessionError => s' = IDLE \/ s' = s
  | SessionClose => s' = IDLE
  | CopyClick | SaveClick | ClearClick
  | SessionMessage _ | AudioProcess _ => s' = s
  end.

(** Case analysis on a state: every ref empty or not, every promise
    fulfilled, rejected or pending. *)
Ltac world_cases w :=
  let h := fresh "h" in
  let fx := fresh "fx" in
  destruct w as [h fx];
  destruct h as [s ts d e [[ci [[]| |]]|] m [[pi [se| |]]|] n];
  destruct m, n.

(* ================================================================== *)
(** * Sample inputs *)
(* ================================================================== *)

Definition sample_stream : MediaStream := {| stream_id := 1 |}.
Definition sample_context : AudioContext :=
  {| context_id := 1; close_settles := Fulfilled tt |}.
Definition sample_session : Session := {| session_id := 1 |}.
Definition sample_promise : SessionPromise :=
  {| promise_id := 1; settles := Fulfilled sample_session |}.

(** A browser in which everything works. *)
Definition sample_browser : Browser := {|
  Date_now := 1700000000000;
  randomUUID := lit "3b241101-e2bb-4255-8caf-4136c566a962";
  confirm := true;
  toLocaleDateString := fun _ => lit "11/14/2023";
  toLocaleTimeString := fun _ => lit "10:13:20 PM";
  new_GoogleGenAI := true;
  getUserMedia := Fulfilled sample_stream;
  new_AudioContext := Some sample_context;
  live_connect := Some sample_promise
|}.

(** One in which the user refuses the microphone. *)
Definition denying_browser : Browser := {|
  Date_now := Date_now sample_browser;
  randomUUID := randomUUID sample_browser;
  confirm := true;
  toLocaleDateString := toLocaleDateString sample_browser;
  toLocaleTimeString := toLocaleTimeString sample_browser;
  new_GoogleGenAI := true;
  getUserMedia := Rejected;
  new_AudioContext := Some sample_context;
  live_connect := Some sample_promise
|}.

(** One whose session request is made and then fails: the promise of
    [ai.live.connect] is rejected. *)
Definition rejected_promise : SessionPromise :=
  {| promise_id := 2; settles := Rejected |}.

Definition unreachable_service : Browser := {|
  Date_now := Date_now sample_browser;
  randomUUID := randomUUID sample_browser;
  confirm := true;
  toLocaleDateString := toLocaleDateString sample_browser;
  toLocaleTimeString := toLocaleTimeString sample_browser;
  new_GoogleGenAI := true;
  getUserMedia := Fulfilled sample_stream;
  new_AudioContext := Some sample_context;
  live_connect := Some rejected_promise
|}.

(** One whose audio context refuses to close. *)
Definition failing_context : AudioContext :=
  {| context_id := 2; close_settles := Rejected |}.

Definition stubborn_browser : Browser := {|
  Date_now := Date_now sample_browser;
  randomUUID := randomUUID sample_browser;
  confirm := true;
  toLocaleDateString := toLocaleDateString sample_browser;
  toLocaleTimeString := toLocaleTimeString sample_browser;
  new_GoogleGenAI := true;
  getUserMedia := Fulfilled sample_stream;
  new_AudioContext := Some failing_context;
  live_connect := Some sample_promise
|}.

Definition partial_message (text : string) : LiveServerMessage :=
  {| serverContent :=
       Some {| inputTranscription :=
                 Some {| transcription_text := Some (lit text) |};
               turnComplete := None |} |}.

(** A transcription object without its [text], [{inputTranscription:
    {}}]. *)
Definition textless_message : LiveServerMessage :=
  {| serverContent :=
       Some {| inputTranscription := Some {| transcription_text := None |};
               turnComplete := None |} |}.

Definition turn_complete_message : LiveServerMessage :=
  {| serverContent :=
       Some {| inputTranscription := None; turnComplete := Some true |} |}.

Definition sample_segment : TranscriptionSegment :=
  {| id := lit "0001"; text := lit "Hello";
     timestamp := 1700000000000; type := user |}.

(** The component after a click on start and the session's opening. *)
Definition listening_world : World :=
  run Pro
    [ (sample_browser, ToggleClick);
      (sample_browser, SessionOpen sample_stream sample_context) ]
    (start initial).

(** The same, with half a sentence heard and its turn not yet complete. *)
Definition dictating_world : World :=
  run Pro
    [ (sample_browser, SessionMessage (partial_message "half a sentence")) ]
    listening_world.

(** Listening, in the browser whose audio context refuses to close. *)
Definition stubborn_world : World :=
  run Pro
    [ (stubborn_browser, ToggleClick);
      (stubborn_browser, SessionOpen sample_stream failing_context) ]
    (start initial).

(* ================================================================== *)
(** * Further vocabulary: the transcript, the resources, the messages *)
(* ================================================================== *)

(** A segment as the accumulator makes them: its text is not empty, has
    no white space at either end, and it is the user's. *)
Definition trimmed_segment (t : TranscriptionSegment) : Prop :=
  text t <> [] /\ trim (text t) = text t /\ type t = user.

(** An event that empties the log: a click on clear-all that the user
    confirms. *)
Definition confirmed_clear (e : Browser * Event) : bool :=
  match snd e with
  | ClearClick => confirm (fst e)
  | _ => false
  end.

(** The UUIDs the browser has ready for the turn-complete messages of a
    run, the only events whose handler may call [crypto.randomUUID]. *)
Definition uuid_for (e : Browser * Event) : list jsstring :=
  match snd e with
  | SessionMessage message =>
    if turnComplete_of message then [randomUUID (fst e)] else []
  | _ => []
  end.

Definition uuids (evs : list (Browser * Event)) : list jsstring :=
  flat_map uuid_for evs.

(** What [stopSession] asks for when nothing stops it: the release of
    each resource a ref holds, in the order of its four [if]s. *)
Definition release_effects (h : Hooks) : list Effect :=
  match scriptProcessorRef h with
  | Some n => [Disconnect n]
  | None => []
  end
  ++ match streamRef h with
     | Some s => [StopTracks s]
     | None => []
     end
  ++ match audioContextRef h with
     | Some c => [CloseContext c]
     | None => []
     end
  ++ match sessionPromiseRef h with
     | Some p =>
       match settles p with
       | Fulfilled session => [CloseSession session]
       | _ => []
       end
     | None => []
     end.

(** The hooks with every ref empty and the session state [IDLE]. *)
Definition torn_down (h : Hooks) : Hooks := {|
  appState := IDLE;
  transcriptions := transcriptions h;
  currentDraft := currentDraft h;
  errorMessage := errorMessage h;
  audioContextRef := None;
  streamRef := None;
  sessionPromiseRef := None;
  scriptProcessorRef := None
|}.

Definition closes_session (e : Effect) : bool :=
  match e with
  | CloseSession _ => true
  | _ => false
  end.

Definition stops_tracks (e : Effect) : bool :=
  match e with
  | StopTracks _ => true
  | _ => false
  end.

Definition opens_session (e : Effect) : bool :=
  match e with
  | LiveConnect _ _ _ => true
  | _ => false
  end.

(** Session requests made and sessions closed so far, and whether the
    component holds a session (its promise) now. *)
Definition sessions_opened (w : World) : nat :=
  length (filter opens_session (effects w)).

Definition sessions_closed (w : World) : nat :=
  length (filter closes_session (effects w)).

Definition holds_session (h : Hooks) : nat :=
  match sessionPromiseRef h with
  | Some _ => 1
  | None => 0
  end.

(** A browser whose audio contexts close and whose session requests are
    answered by a session. *)
Definition dependable (env : Browser) : Prop :=
  (forall c, new_AudioContext env = Some c -> close_settles c = Fulfilled tt)
  /\ (exists p se, live_connect env = Some p /\ settles p = Fulfilled se).

(** Every session requested has been closed, but for the one held; what
    the refs hold can be torn down; and a session is held only while
    connecting or listening. *)
Definition one_session (w : World) : Prop :=
  sessions_opened w = sessions_closed w + holds_session (hooks w)
  /\ teardown_completes (hooks w) = true
  /\ (sessionPromiseRef (hooks w) <> None ->
      appState (hooks w) = CONNECTING \/ appState (hooks w) = LISTENING).

(** The messages the component can show. *)
Definition shown_message (ed : Edition) (m : option jsstring) : Prop :=
  m = None \/ m = Some (SESSION_MESSAGE ed)
  \/ m = Some (MICROPHONE_MESSAGE ed).

(** The slash, which the second listing keeps out of file names. *)
Definition SLASH : code_unit := 0x2F%N.

(** A browser in which a start succeeds and the teardown after it too:
    the microphone [s] is granted, the audio context [c] is made and will
    close, the session request returns the promise [p], which is
    fulfilled with the session [se]. *)
Definition start_succeeds (env : Browser) (s : MediaStream)
  (c : AudioContext) (p : SessionPromise) (se : Session) : Prop :=
  new_GoogleGenAI env = true
  /\ getUserMedia env = Fulfilled s
  /\ new_AudioContext env = Some c
  /\ live_connect env = Some p
  /\ close_settles c = Fulfilled tt
  /\ settles p = Fulfilled se.

(** The microphone is granted and then the audio context or the session
    request cannot be made. *)
Definition fails_after_grant (env : Browser) (s : MediaStream) : Prop :=
  new_GoogleGenAI env = true
  /\ getUserMedia env = Fulfilled s
  /\ (new_AudioContext env = None \/ live_connect env = None).

(** A session request whose promise never settles. *)
Definition pending_promise : SessionPromise :=
  {| promise_id := 3; settles := Pending |}.

Definition silent_service : Browser := {|
  Date_now := Date_now sample_browser;
  randomUUID := randomUUID sample_browser;
  confirm := true;
  toLocaleDateString := toLocaleDateString sample_browser;
  toLocaleTimeString := toLocaleTimeString sample_browser;
  new_GoogleGenAI := true;
  getUserMedia := Fulfilled sample_stream;
  new_AudioContext := Some sample_context;
  live_connect := Some pending_promise
|}.

(** A browser that grants the microphone and cannot make an audio
    context. *)
Definition contextless_browser : Browser := {|
  Date_now := Date_now sample_browser;
  randomUUID := randomUUID sample_browser;
  confirm := true;
  toLocaleDateString := toLocaleDateString sample_browser;
  toLocaleTimeString := toLocaleTimeString sample_browser;
  new_GoogleGenAI := true;
  getUserMedia := Fulfilled sample_stream;
  new_AudioContext := None;
  live_connect := Some sample_promise
|}.

(** A second capture and session, for a restart. *)
Definition second_stream : MediaStream := {| stream_id := 2 |}.
Definition second_context : AudioContext :=
  {| context_id := 3; close_settles := Fulfilled tt |}.
Definition second_session : Session := {| session_id := 2 |}.
Definition second_promise : SessionPromise :=
  {| promise_id := 4; settles := Fulfilled second_session |}.

Definition second_browser : Browser := {|
  Date_now := 1700000060000;
  randomUUID := lit "9f1c7a52-0d3e-4b6f-a1c8-5e2d7b904c11";
  confirm := true;
  toLocaleDateString := toLocaleDateString sample_browser;
  toLocaleTimeString := toLocaleTimeString sample_browser;
  new_GoogleGenAI := true;
  getUserMedia := Fulfilled second_stream;
  new_AudioContext := Some second_context;
  live_connect := Some second_promise
|}.

(** The path the spec gives the session state: [IDLE] to [CONNECTING] to
    [LISTENING] to [IDLE], the error path from [CONNECTING] back to
    [IDLE], and staying in a state. *)
Definition lifecycle_edge (s s' : AppState) : Prop :=
  s' = s
  \/ (s = IDLE /\ s' = CONNECTING)
  \/ (s = CONNECTING /\ s' = LISTENING)
  \/ (s = LISTENING /\ s' = IDLE)
  \/ (s = CONNECTING /\ s' = IDLE).

(** The session states a run goes through, one after each event. *)
Fixpoint states (ed : Edition) (evs : list (Browser * Event)) (w : World)
  : list AppState :=
  match evs with
  | [] => []
  | (env, ev) :: rest =>
    let w' := exec (dispatch ed env ev) w in
    appState (hooks w') :: states ed rest w'
  end.

(** A session is started, opens and is stopped; the user starts the next
    one; then the close event of the first session, which its
    [session.close()] brought about, arrives. *)
Definition restart_before_close : list (Browser * Event) :=
  [ (sample_browser, ToggleClick);
    (sample_browser, SessionOpen sample_stream sample_context);
    (sample_browser, ToggleClick);
    (second_browser, ToggleClick);
    (second_browser, SessionClose) ].

(* ================================================================== *)
(** * Facts about strings *)
(* ================================================================== *)

Section TrimFacts.

Lemma forallb_reverse {A} (f : A -> bool) (l : list A) :
  forallb f (rev l) = forallb f l.
Proof.
  induction l as [|x l IH]; simpl; [reflexivity|].
  rewrite forallb_app, IH. simpl. rewrite andb_true_r. apply andb_comm.
Qed.

Lemma trimStart_app_white (a b : jsstring) :
  forallb is_white_space a = true -> trimStart (a ++ b) = trimStart b.
Proof.
  induction a as [|c a IH]; simpl; intros H; [reflexivity|].
  apply andb_true_iff in H. destruct H as [Hc Ha].
  rewrite Hc. now apply IH.
Qed.

Lemma trimStart_white (s : jsstring) :
  trimStart s = [] <-> forallb is_white_space s = true.
Proof.
  induction s as [|c s IH]; simpl.
  - tauto.
  - destruct (is_white_space c); simpl.
    + exact IH.
    + split; discriminate.
Qed.

Lemma forallb_trimStart (s : jsstring) :
  forallb is_white_space s = true ->
  forallb is_white_space (trimStart s) = true.
Proof. intros H. apply trimStart_white in H. now rewrite H. Qed.

Lemma trimStart_suffix (s : jsstring) :
  exists a, s = a ++ trimStart s /\ forallb is_white_space a = true.
Proof.
  induction s as [|c s [a [E W]]]; simpl.
  - now exists [].
  - destruct (is_white_space c) eqn:Hc.
    + exists (c :: a). simpl. rewrite Hc, W. split; [now f_equal|reflexivity].
    + now exists [].
Qed.

(** [trim] leaves nothing exactly when there was only white space. *)
Lemma trim_white (s : jsstring) :
  trim s = [] <-> forallb is_white_space s = true.
Proof.
  unfold trim, trimEnd. split.
  - intros H.
    assert (R : trimStart (rev (trimStart s)) = []).
    { destruct (trimStart (rev (trimStart s))) as [|x l]; [reflexivity|].
      simpl in H. now destruct (rev l). }
    apply trimStart_white in R. rewrite forallb_reverse in R.
    destruct (trimStart_suffix s) as [a [E W]].
    rewrite E, forallb_app, W, R. reflexivity.
  - intros H. apply trimStart_white in H. rewrite H. reflexivity.
Qed.

Lemma truthy_trim (s : jsstring) :
  truthy (trim s) = negb (forallb is_white_space s).
Proof.
  destruct (forallb is_white_space s) eqn:W.
  - apply trim_white in W. now rewrite W.
  - destruct (trim s) eqn:T; [|reflexivity].
    apply trim_white in T. congruence.
Qed.

(** What [trim] returns starts and ends with a code unit that is not
    white space. *)
Lemma trimStart_head (s : jsstring) c r :
  trimStart s = c :: r -> is_white_space c = false.
Proof.
  induction s as [|x s IH]; simpl; [discriminate|].
  destruct (is_white_space x) eqn:Hx; [exact IH|].
  intros E. now inversion E; subst.
Qed.

Lemma trimStart_keeps_last (s : jsstring) x :
  is_white_space x = false -> trimStart (s ++ [x]) = trimStart s ++ [x].
Proof.
  intros Hx. induction s as [|c s IH]; simpl.
  - now rewrite Hx.
  - destruct (is_white_space c); [exact IH|reflexivity].
Qed.

Lemma trim_head (s : jsstring) c r :
  trim s = c :: r -> is_white_space c = false.
Proof.
  unfold trim, trimEnd. intros E.
  destruct (trimStart (rev (trimStart s))) as [|x l] eqn:R;
    [discriminate|].
  pose proof (trimStart_head _ _ _ R) as Hx.
  destruct (trimStart_suffix (rev (trimStart s))) as [a [Ea Wa]].
  rewrite R in Ea.
  assert (Es : trimStart s = rev l ++ [x] ++ rev a).
  { rewrite <- (rev_involutive (trimStart s)), Ea, rev_app_distr.
    simpl. now rewrite <- app_assoc. }
  simpl in E.
  destruct (rev l) as [|y l'] eqn:L.
  - simpl in E. inversion E; subst. exact Hx.
  - simpl in E. inversion E; subst.
    simpl in Es. exact (trimStart_head _ _ _ Es).
Qed.

Lemma trim_last (s : jsstring) r c :
  trim s = r ++ [c] -> is_white_space c = false.
Proof.
  unfold trim, trimEnd. intros E.
  destruct (trimStart (rev (trimStart s))) as [|x l] eqn:R.
  - now destruct r.
  - simpl in E. apply app_inj_tail in E. destruct E as [_ <-].
    exact (trimStart_head _ _ _ R).
Qed.

Lemma trim_idempotent (s : jsstring) : trim (trim s) = trim s.
Proof.
  destruct (trim s) as [|c r] eqn:T; [reflexivity|].
  pose proof (trim_head _ _ _ T) as Hc.
  destruct (@exists_last _ (c :: r)) as [r' [x E]]; [discriminate|].
  rewrite E. rewrite E in T. pose proof (trim_last _ _ _ T) as Hx.
  unfold trim, trimEnd.
  assert (S1 : trimStart (r' ++ [x]) = r' ++ [x]).
  { rewrite <- E. simpl. now rewrite Hc. }
  rewrite S1, rev_app_distr. simpl. rewrite Hx.
  simpl. now rewrite rev_involutive.
Qed.

End TrimFacts.

Example trim_example :
  trim (lit "  မင်္ဂလာပါ hello 	") = lit "မင်္ဂလာပါ hello".
Proof. vm_compute. reflexivity. Qed.

Example join_example :
  join nl [lit "Hello"; lit "World"] = lit "Hello" ++ nl ++ lit "World".
Proof. reflexivity. Qed.

(* ================================================================== *)
(** * The transcript accumulator *)
(* ================================================================== *)

Section Accumulator.

Variable ed : Edition.

(** What [onmessage] does, in one equation: the fragment is appended,
    and a completed turn moves the trimmed draft to the log. *)
Lemma onmessage_run env message w :
  onmessage env message w =
  (Normal tt,
   {| hooks :=
        let d := currentDraft (hooks w) ++ fragment message in
        if turnComplete_of message then
          with_currentDraft []
            (if truthy (trim d) then
               with_transcriptions
                 (transcriptions (hooks w) ++ [segment_of env d])
                 (with_currentDraft d (hooks w))
             else with_currentDraft d (hooks w))
        else
          match inputTranscription_of message with
          | Some _ => with_currentDraft d (hooks w)
          | None => hooks w
          end;
      effects := effects w |}).
Proof.
  destruct w as [h fx]. destruct h.
  unfold onmessage, onmessage_inputTranscription, onmessage_turnComplete,
    fragment, segment_of.
  destruct (inputTranscription_of message) as [t|];
    destruct (turnComplete_of message);
    cbv [bind ret when read update setCurrentDraft setTranscriptions
         string_plus
         hooks effects currentDraft transcriptions with_currentDraft
         with_transcriptions appState errorMessage audioContextRef
         streamRef sessionPromiseRef scriptProcessorRef];
    rewrite ?app_nil_r;
    try match goal with |- context [truthy ?x] => destruct (truthy x) end;
    reflexivity.
Qed.

Lemma partial_keeps_draft env message w :
  turnComplete_of message = false ->
  currentDraft (hooks (exec (dispatch ed env (SessionMessage message)) w))
  = currentDraft (hooks w) ++ fragment message.
Proof.
  intros H. unfold exec. cbn [dispatch]. rewrite onmessage_run, H. cbn.
  unfold fragment. destruct (inputTranscription_of message); cbn.
  - reflexivity.
  - now rewrite app_nil_r.
Qed.

Lemma partials_accumulate l : forall w,
  Forall within_turn l ->
  currentDraft (hooks (run ed (message_events l) w))
  = currentDraft (hooks w) ++ concat (map (fun e => fragment (snd e)) l).
Proof.
  induction l as [|[env m] l IH]; intros w F; cbn [message_events map run].
  - cbn. now rewrite app_nil_r.
  - inversion F as [|? ? Hm Hl]; subst.
    fold (message_events l). rewrite IH by exact Hl.
    rewrite partial_keeps_draft by exact Hm.
    cbn. now rewrite app_assoc.
Qed.

End Accumulator.

(** C1. For every turn-complete event: when the accumulated draft is not
    empty after trimming, exactly one new segment, whose text is the
    trimmed draft, is appended at the end of the transcript log; when the
    draft is empty or all white space the log is left as it was (and one
    of the two is the case); either way the draft is reset to the empty
    string.  The accumulated draft includes the fragment the completing
    message itself may carry. *)
Theorem turn_complete_commits_draft ed env message w :
  turnComplete_of message = true ->
  let draft := currentDraft (hooks w) ++ fragment message in
  let w' := exec (dispatch ed env (SessionMessage message)) w in
  completion (dispatch ed env (SessionMessage message)) w = Normal tt /\
  currentDraft (hooks w') = [] /\
  (trim draft <> [] ->
   transcriptions (hooks w')
   = transcriptions (hooks w) ++ [segment_of env draft]
   /\ text (segment_of env draft) = trim draft) /\
  (forallb is_white_space draft = true ->
   transcriptions (hooks w') = transcriptions (hooks w)) /\
  (trim draft <> [] \/ forallb is_white_space draft = true).
Proof.
  intros H draft w'. subst w'. unfold exec, completion.
  cbn [dispatch]. rewrite onmessage_run, H. fold draft. cbn [fst snd hooks].
  rewrite truthy_trim.
  split; [reflexivity|]. split; [reflexivity|].
  destruct (forallb is_white_space draft) eqn:W; cbn.
  - split; [|split; [reflexivity | now right]].
    intros T. apply trim_white in W. contradiction.
  - assert (T : trim draft <> []).
    { intros T. apply trim_white in T. congruence. }
    split; [now split | split; [discriminate | now left]].
Qed.

Lemma turn_complete_commits_draft_witness :
  let w := start (with_currentDraft (lit "  hello world ") initial) in
  let w' :=
    exec (dispatch Pro sample_browser (SessionMessage turn_complete_message))
      w in
  currentDraft (hooks w') = []
  /\ map text (transcriptions (hooks w')) = [lit "hello world"].
Proof.
  intros w w'.
  destruct (turn_complete_commits_draft Pro sample_browser
              turn_complete_message w eq_refl) as (_ & D & T & _).
  split; [exact D|].
  destruct T as [T _]; [vm_compute; discriminate|].
  subst w'. rewrite T. vm_compute. reflexivity.
Defined.

(** Where every event of the sequence is a partial-transcript event
    with its text, the draft, empty at the start, is the concatenation of
    the texts in arrival order: nothing is trimmed, dropped or
    reordered. *)
Lemma draft_is_concatenation ed l texts w :
  currentDraft (hooks w) = [] ->
  Forall2 partial_transcript l texts ->
  currentDraft (hooks (run ed (message_events l) w)) = concat texts.
Proof.
  intros E F.
  assert (W : Forall within_turn l).
  { induction F as [|e t l ts [_ T] _ IH]; constructor; assumption. }
  rewrite partials_accumulate by exact W. rewrite E. cbn [app].
  f_equal. clear W E.
  induction F as [|e t l ts [T _] _ IH]; [reflexivity|].
  cbn [map]. rewrite IH. f_equal.
  unfold fragment, text_of in *.
  destruct (inputTranscription_of (snd e)); [|discriminate T].
  now rewrite T.
Qed.

Lemma draft_is_concatenation_witness :
  currentDraft
    (hooks
       (run Scribe
          (message_events
             [ (sample_browser, partial_message " a");
               (sample_browser, partial_message "b ");
               (sample_browser, partial_message " a") ])
          (start initial)))
  = lit " ab  a".
Proof.
  rewrite (draft_is_concatenation Scribe
             [ (sample_browser, partial_message " a");
               (sample_browser, partial_message "b ");
               (sample_browser, partial_message " a") ]
             [ lit " a"; lit "b "; lit " a" ]
             (start initial) eq_refl).
  - reflexivity.
  - repeat constructor.
Defined.

(** C2. The handler guards on the [inputTranscription] object and then
    appends its [text] unread: for a transcription that has no [text],
    [prev + text] appends the nine code units of [undefined], in every
    state and in both listings, so a draft ["ab"] becomes
    ["abundefined"] where the concatenation of the text fragments is
    ["ab"].  Where each event carries its text the draft is the exact
    concatenation of the texts. *)
Theorem textless_transcription_appends_undefined :
  (forall ed env w,
     currentDraft
       (hooks (exec (dispatch ed env (SessionMessage textless_message)) w))
     = currentDraft (hooks w) ++ lit "undefined")
  /\ currentDraft
       (hooks
          (run Pro
             (message_events
                [ (sample_browser, partial_message "ab");
                  (sample_browser, textless_message) ])
             (start initial)))
     = lit "abundefined"
  /\ (forall ed l texts w,
      currentDraft (hooks w) = [] ->
      Forall2 partial_transcript l texts ->
      currentDraft (hooks (run ed (message_events l) w)) = concat texts).
Proof.
  split; [|split].
  - intros ed env w. now rewrite partial_keeps_draft.
  - vm_compute. reflexivity.
  - exact draft_is_concatenation.
Qed.

(** C10. A partial-transcript event changes the draft and nothing else:
    what [prev + text] adds (the transcription's text, or the word
    [undefined] when it has none) is appended to the draft, while the
    transcript log, the session state, the error message, every ref and
    the effect log are as before.  This holds for the handler's
    [inputTranscription] branch on every message, and for the whole
    handler on a message that does not also complete the turn. *)
Theorem partial_transcript_changes_draft_only ed env message t w :
  inputTranscription_of message = Some t ->
  let d := currentDraft (hooks w) ++ to_string (transcription_text t) in
  let b := exec (onmessage_inputTranscription message) w in
  (hooks b = with_currentDraft d (hooks w) /\ effects b = effects w) /\
  (turnComplete_of message = false ->
   let w' := exec (dispatch ed env (SessionMessage message)) w in
   currentDraft (hooks w') = d /\
   transcriptions (hooks w') = transcriptions (hooks w) /\
   appState (hooks w') = appState (hooks w) /\
   errorMessage (hooks w') = errorMessage (hooks w) /\
   hooks w' = with_currentDraft d (hooks w) /\
   effects w' = effects w).
Proof.
  intros I d b. split.
  - subst b. unfold exec, onmessage_inputTranscription. rewrite I.
    destruct w as [h fx]. now destruct h.
  - intros H w'. subst w'. unfold exec. cbn [dispatch].
    rewrite onmessage_run, H, I. cbn [snd hooks effects].
    unfold fragment. rewrite I. fold d.
    destruct w as [h fx]. now destruct h.
Qed.

Lemma partial_transcript_changes_draft_only_witness :
  let w :=
    {| hooks := with_appState LISTENING (with_currentDraft (lit "ab") initial);
       effects := [ConsoleError] |} in
  exec (dispatch Pro sample_browser (SessionMessage (partial_message "c"))) w
  = {| hooks := with_appState LISTENING (with_currentDraft (lit "abc") initial);
       effects := [ConsoleError] |}.
Proof.
  intros w.
  destruct (partial_transcript_changes_draft_only Pro sample_browser
              (partial_message "c") _ w eq_refl) as [_ F].
  destruct (F eq_refl) as (_ & _ & _ & _ & Hh & He).
  destruct (exec _ w) as [h fx]. cbn in Hh, He. subst h fx. reflexivity.
Defined.

(* ================================================================== *)
(** * The session lifecycle *)
(* ================================================================== *)

Section StopSession.

Variable w : World.

Lemma stopSession_keeps_transcript :
  currentDraft (hooks (exec stopSession w)) = currentDraft (hooks w)
  /\ transcriptions (hooks (exec stopSession w)) = transcriptions (hooks w)
  /\ errorMessage (hooks (exec stopSession w)) = errorMessage (hooks w).
Proof. world_cases w; repeat split. Qed.

Lemma stopSession_appState :
  appState (hooks (exec stopSession w))
  = if teardown_completes (hooks w) then IDLE else appState (hooks w).
Proof. world_cases w; reflexivity. Qed.

Lemma stopSession_completion :
  completion stopSession w = Normal tt
  <-> teardown_completes (hooks w) = true.
Proof. world_cases w; cbv; split; congruence. Qed.

Lemma stopSession_releases :
  teardown_completes (hooks w) = true ->
  let h' := hooks (exec stopSession w) in
  audioContextRef h' = None /\ streamRef h' = None
  /\ sessionPromiseRef h' = None /\ scriptProcessorRef h' = None.
Proof. world_cases w; cbv; intros; repeat split; congruence. Qed.

Lemma stopSession_acquires_nothing :
  acquisitions (exec stopSession w) = acquisitions w.
Proof.
  unfold acquisitions.
  world_cases w; cbn; rewrite <- ?app_assoc, ?filter_app; cbn;
    rewrite ?app_nil_r; reflexivity.
Qed.

End StopSession.

(** C3 (as amended). For every state, calling [stopSession] leaves the
    draft as it is (a pending draft is kept, not discarded) and leaves
    the transcript log unchanged: stopping creates no segment.  The same
    holds for a click on the toggle while listening, which is how the
    user stops. *)
Theorem stop_keeps_draft_and_log ed env w :
  (currentDraft (hooks (exec stopSession w)) = currentDraft (hooks w)
   /\ transcriptions (hooks (exec stopSession w)) = transcriptions (hooks w))
  /\ (appState (hooks w) = LISTENING ->
      let w' := exec (dispatch ed env ToggleClick) w in
      currentDraft (hooks w') = currentDraft (hooks w)
      /\ transcriptions (hooks w') = transcriptions (hooks w)).
Proof.
  destruct (stopSession_keeps_transcript w) as (D & T & _).
  split; [now split|].
  intros L w'. subst w'. unfold exec. cbn [dispatch].
  unfold toggle_onClick, bind, read. rewrite L. cbn [AppState_eqb].
  unfold detached. cbn [snd]. now split.
Qed.

Lemma stop_keeps_draft_and_log_witness :
  currentDraft
    (hooks (exec (dispatch Pro sample_browser ToggleClick) dictating_world))
  = lit "half a sentence"
  /\ transcriptions
       (hooks (exec (dispatch Pro sample_browser ToggleClick) dictating_world))
     = [].
Proof.
  destruct (stop_keeps_draft_and_log Pro sample_browser dictating_world)
    as [_ K].
  exact (K eq_refl).
Defined.

(** The claim as the spec has it fails: a pending draft survives
    [stopSession]. *)
Lemma stop_discards_draft_counterexample :
  currentDraft (hooks dictating_world) <> []
  /\ ~ (currentDraft (hooks (exec stopSession dictating_world)) = []
        /\ transcriptions (hooks (exec stopSession dictating_world))
           = transcriptions (hooks dictating_world)).
Proof.
  split.
  - vm_compute. discriminate.
  - intros [D _]. vm_compute in D. discriminate.
Qed.

(** What becomes of the draft that stopping kept: the next session's
    first completed turn logs it together with the new words. *)
Example kept_draft_is_logged_by_next_turn :
  map text
    (transcriptions
       (hooks
          (run Pro
             [ (sample_browser, ToggleClick);
               (sample_browser, ToggleClick);
               (sample_browser, SessionOpen sample_stream sample_context);
               (sample_browser, SessionMessage (partial_message " new"));
               (sample_browser, SessionMessage turn_complete_message) ]
             dictating_world)))
  = [lit "half a sentence new"].
Proof. vm_compute. reflexivity. Qed.

(** ** The error callback *)

Lemma messages_not_empty ed :
  SESSION_MESSAGE ed <> [] /\ MICROPHONE_MESSAGE ed <> []
  /\ NOTHING_TO_SAVE ed <> [].
Proof. destruct ed; repeat split; vm_compute; discriminate. Qed.

(** [onerror] is: log, set the message, then [stopSession] on what that
    left. *)
Lemma onerror_run ed w :
  exec (onerror ed) w
  = exec stopSession
      {| hooks := with_errorMessage (Some (SESSION_MESSAGE ed)) (hooks w);
         effects := effects w ++ [ConsoleError] |}.
Proof. reflexivity. Qed.

(** C5 (as amended). For every error event received while listening, the
    handler sets a non-null message for the user and calls
    [stopSession] (the state it leaves is the one [stopSession] leaves
    once the message is set).  The session state becomes [IDLE] when
    both of [stopSession]'s awaits succeed, and is still [LISTENING] when
    one of them fails: [stopSession] writes the state last, past both.
    Nothing is retried (no capture or session is opened), and [ERROR] is
    not entered. *)
Theorem session_error_while_listening ed env w :
  appState (hooks w) = LISTENING ->
  let w' := exec (dispatch ed env SessionError) w in
  completion (dispatch ed env SessionError) w = Normal tt
  /\ errorMessage (hooks w') = Some (SESSION_MESSAGE ed)
  /\ SESSION_MESSAGE ed <> []
  /\ w' = exec stopSession
            {| hooks :=
                 with_errorMessage (Some (SESSION_MESSAGE ed)) (hooks w);
               effects := effects w ++ [ConsoleError] |}
  /\ appState (hooks w')
     = (if teardown_completes (hooks w) then IDLE else LISTENING)
  /\ appState (hooks w') <> ERROR
  /\ acquisitions w' = acquisitions w.
Proof.
  intros L w'. subst w'. cbn [dispatch]. rewrite onerror_run.
  set (w1 := {| hooks := _; effects := _ |}).
  destruct (stopSession_keeps_transcript w1) as (_ & _ & E).
  pose proof (stopSession_appState w1) as S.
  pose proof (stopSession_acquires_nothing w1) as Q.
  assert (T : teardown_completes (hooks w1) = teardown_completes (hooks w))
    by (destruct w as [h fx]; now destruct h).
  assert (L1 : appState (hooks w1) = LISTENING)
    by (destruct w as [h fx]; destruct h; exact L).
  rewrite T, L1 in S.
  repeat split.
  - rewrite E. destruct w as [h fx]. now destruct h.
  - exact (proj1 (messages_not_empty ed)).
  - exact S.
  - rewrite S. destruct (teardown_completes (hooks w)); discriminate.
  - rewrite Q. unfold acquisitions, w1. cbn [effects].
    rewrite filter_app. cbn. now rewrite app_nil_r.
Qed.

Lemma session_error_while_listening_witness :
  let w' := exec (dispatch Pro sample_browser SessionError) listening_world in
  errorMessage (hooks w') = Some (SESSION_MESSAGE Pro)
  /\ appState (hooks w') = IDLE.
Proof.
  destruct (session_error_while_listening Pro sample_browser
              listening_world eq_refl) as (_ & M & _ & _ & S & _).
  split; [exact M | exact S].
Defined.

(** The claim as the spec has it fails where closing the audio context
    is refused: the message is set, the state is still [LISTENING]. *)
Lemma session_error_idle_counterexample :
  let w' := exec (dispatch Pro stubborn_browser SessionError) stubborn_world in
  appState (hooks stubborn_world) = LISTENING
  /\ ~ (errorMessage (hooks w') <> None /\ appState (hooks w') = IDLE).
Proof.
  cbv zeta. split; [reflexivity|].
  intros [_ S]. vm_compute in S. discriminate.
Qed.

(** ** [startSession] *)

Lemma startSession_try_throws ed env w :
  completion (startSession_try ed env) w = Throw
  <-> throws_in_start env = true.
Proof.
  unfold completion, startSession_try, throws_in_start.
  destruct env as [? ? ? ? ? [|] [?| |] [?|] [?|]]; cbv; split; congruence.
Qed.

(** C6 (as amended). For every failure raised inside [startSession]'s
    [try] block (the microphone is refused, or the client, the audio
    context or the call that opens the session throws), the handler
    returns with a non-empty message set and the session state [IDLE].
    A refused microphone is such a failure whatever else happens. *)
Theorem failed_start_reports_and_idles ed env w :
  throws_in_start env = true ->
  let w' := exec (startSession ed env) w in
  completion (startSession ed env) w = Normal tt
  /\ errorMessage (hooks w') = Some (MICROPHONE_MESSAGE ed)
  /\ MICROPHONE_MESSAGE ed <> []
  /\ appState (hooks w') = IDLE
  /\ (forall env', permission_denied env' = true ->
      throws_in_start env' = true).
Proof.
  intros T w'. subst w'.
  assert (M : MICROPHONE_MESSAGE ed <> [])
    by exact (proj1 (proj2 (messages_not_empty ed))).
  split; [|split; [|split; [exact M|split]]].
  4: { intros env' P. unfold throws_in_start, permission_denied in *.
       destruct (getUserMedia env'); try discriminate.
       now rewrite orb_true_r. }
  all: unfold exec, completion, startSession, try_catch;
    destruct w as [h fx]; destruct h;
    destruct env as [? ? ? ? ? [|] [?| |] [?|] [?|]];
    try discriminate T; destruct ed; reflexivity.
Qed.

Lemma failed_start_reports_and_idles_witness :
  let w' := exec (dispatch Scribe denying_browser ToggleClick) (start initial) in
  errorMessage (hooks w') = Some (MICROPHONE_MESSAGE Scribe)
  /\ appState (hooks w') = IDLE.
Proof.
  destruct (failed_start_reports_and_idles Scribe denying_browser
              (start initial) eq_refl) as (_ & M & _ & S & _).
  split; [exact M | exact S].
Defined.

(** The claim as the spec has it fails for a session that does not open:
    the promise of [ai.live.connect] is stored, not awaited, so its
    rejection is not an exception of the [try] block. *)
Lemma start_failure_counterexample :
  let w' := exec (startSession Pro unreachable_service) (start initial) in
  (permission_denied unreachable_service
   || session_open_fails unreachable_service = true)
  /\ ~ (errorMessage (hooks w') <> None /\ appState (hooks w') = IDLE).
Proof.
  cbv zeta. split; [reflexivity|].
  intros [_ S]. vm_compute in S. discriminate.
Qed.

(** Where the [try] block ends normally the state is [CONNECTING] and no
    message is set, however the stored promise settles later. *)
Lemma started_is_connecting ed env w :
  completion (startSession ed env) w = Normal tt ->
  throws_in_start env = false ->
  appState (hooks (exec (startSession ed env) w)) = CONNECTING
  /\ errorMessage (hooks (exec (startSession ed env) w)) = None
  /\ sessionPromiseRef (hooks (exec (startSession ed env) w))
     = live_connect env.
Proof.
  unfold exec, completion, startSession, try_catch.
  destruct w as [h fx]; destruct h;
    destruct env as [? ? ? ? ? [|] [?| |] [?|] [?|]];
    cbv; intros C T; try discriminate; repeat split.
Qed.

(** ** The start/stop control and the session state *)

Lemma startSession_appState ed env w :
  appState (hooks (exec (startSession ed env) w)) = CONNECTING
  \/ appState (hooks (exec (startSession ed env) w)) = IDLE.
Proof.
  unfold exec, startSession, try_catch.
  destruct w as [h fx]; destruct h;
    destruct env as [? ? ? ? ? [|] [?| |] [?|] [?|]];
    destruct ed; cbn; auto.
Qed.

Lemma toggle_run ed env w :
  exec (toggle_onClick ed env) w
  = match appState (hooks w) with
    | CONNECTING => w
    | LISTENING => exec stopSession w
    | IDLE | ERROR => exec (startSession ed env) w
    end.
Proof.
  unfold exec at 1, toggle_onClick, bind, read, detached.
  destruct (appState (hooks w)); reflexivity.
Qed.

Lemma dispatch_state_write ed env ev w :
  state_write ev (appState (hooks w))
    (appState (hooks (exec (dispatch ed env ev) w))).
Proof.
  destruct ev; cbn [dispatch state_write].
  - rewrite toggle_run. destruct (appState (hooks w)) eqn:S.
    + apply startSession_appState.
    + exact S.
    + rewrite stopSession_appState, S.
      destruct (teardown_completes (hooks w)); auto.
    + apply startSession_appState.
  - destruct w as [h fx]; now destruct h.
  - unfold exec, saveAsWord, bind, read.
    destruct w as [h fx]; destruct h as [s ts d e c m p n].
    cbn [hooks transcriptions]. now destruct (length ts =? 0)%nat.
  - unfold exec, clearAll.
    destruct w as [h fx]; destruct h.
    destruct (confirm env), ed; reflexivity.
  - reflexivity.
  - unfold exec. rewrite onmessage_run. cbn [snd hooks].
    destruct w as [h fx]; destruct h.
    destruct (turnComplete_of message), (inputTranscription_of message);
      try destruct (truthy _); reflexivity.
  - rewrite onerror_run, stopSession_appState.
    destruct (teardown_completes _); [now left | right].
    destruct w as [h fx]; now destruct h.
  - reflexivity.
  - unfold exec, onaudioprocess, bind, read.
    destruct w as [h fx]; destruct h as [s ts d e c m [[pi [se| |]]|] n];
      reflexivity.
Qed.

Lemma state_write_not_error ev s s' :
  state_write ev s s' -> s <> ERROR -> s' <> ERROR.
Proof.
  destruct ev; cbn; try destruct s; intuition congruence.
Qed.

Lemma run_never_error ed evs : forall w,
  appState (hooks w) <> ERROR ->
  appState (hooks (run ed evs w)) <> ERROR.
Proof.
  induction evs as [|[env ev] evs IH]; intros w H; cbn [run]; [exact H|].
  apply IH. eapply state_write_not_error; [apply dispatch_state_write|exact H].
Qed.

Lemma dispatch_lifecycle_edge ed env ev w :
  appState (hooks w) <> ERROR ->
  lifecycle_edge (appState (hooks w))
    (appState (hooks (exec (dispatch ed env ev) w)))
  \/ (exists stream audioCtx,
        ev = SessionOpen stream audioCtx
        /\ appState (hooks w) = IDLE
        /\ appState (hooks (exec (dispatch ed env ev) w)) = LISTENING).
Proof.
  intros E. pose proof (dispatch_state_write ed env ev w) as W.
  set (s' := appState (hooks (exec (dispatch ed env ev) w))) in *.
  unfold lifecycle_edge.
  destruct ev; cbn [state_write] in W;
    destruct (appState (hooks w)) eqn:S; try (now contradiction E);
    try (destruct W as [W|W]); rewrite W; auto 7.
  right. exists stream, audioCtx. auto.
Qed.

(** C4 (as amended). While the session state is [CONNECTING] or
    [LISTENING] (and [ERROR] is never entered) the start/stop control
    does not run [startSession]: while [CONNECTING] it is disabled, a
    click changes nothing and asks for nothing; while [LISTENING] a click
    runs [stopSession], which opens no capture and no session.  Every
    event moves the state along the path [IDLE], [CONNECTING],
    [LISTENING], [IDLE], with the error path from [CONNECTING] to [IDLE],
    or leaves it, with one exception: the open callback sets [LISTENING]
    whatever the state, so an open event that arrives while [IDLE] moves
    [IDLE] to [LISTENING]. *)
Theorem toggle_guards_start ed env w :
  (appState (hooks w) = CONNECTING ->
   dispatch ed env ToggleClick w = (Normal tt, w))
  /\ (appState (hooks w) = LISTENING ->
      exec (dispatch ed env ToggleClick) w = exec stopSession w
      /\ acquisitions (exec (dispatch ed env ToggleClick) w)
         = acquisitions w)
  /\ (forall ev,
      appState (hooks w) <> ERROR ->
      lifecycle_edge (appState (hooks w))
        (appState (hooks (exec (dispatch ed env ev) w)))
      \/ (exists stream audioCtx,
            ev = SessionOpen stream audioCtx
            /\ appState (hooks w) = IDLE
            /\ appState (hooks (exec (dispatch ed env ev) w)) = LISTENING))
  /\ (forall evs,
      appState (hooks w) <> ERROR ->
      appState (hooks (run ed evs w)) <> ERROR).
Proof.
  split; [|split; [|split]].
  - intros C. cbn [dispatch]. unfold toggle_onClick, bind, read.
    rewrite C. reflexivity.
  - intros L. cbn [dispatch]. rewrite toggle_run, L.
    split; [reflexivity | apply stopSession_acquires_nothing].
  - intros ev. apply dispatch_lifecycle_edge.
  - intros evs. apply run_never_error.
Qed.

Lemma toggle_guards_start_witness :
  dispatch Pro sample_browser ToggleClick
    (start (with_appState CONNECTING initial))
  = (Normal tt, start (with_appState CONNECTING initial))
  /\ acquisitions (exec (dispatch Pro sample_browser ToggleClick)
                     listening_world)
     = acquisitions listening_world.
Proof.
  split.
  - exact (proj1 (toggle_guards_start Pro sample_browser
                    (start (with_appState CONNECTING initial))) eq_refl).
  - destruct (toggle_guards_start Pro sample_browser listening_world)
      as (_ & L & _).
    destruct (L eq_refl) as [_ A]. exact A.
Defined.

(** The claim as the spec has it fails on its path: the user stops a
    session and starts the next before the close event of the first has
    arrived.  That event sets [IDLE] while the second session is
    connecting, and the second session's opening then moves the state
    from [IDLE] to [LISTENING], an edge the path does not have. *)
Lemma restart_before_close_counterexample :
  let w := run Pro restart_before_close (start initial) in
  let w' :=
    exec (dispatch Pro second_browser
            (SessionOpen second_stream second_context)) w in
  states Pro restart_before_close (start initial)
  = [CONNECTING; LISTENING; IDLE; CONNECTING; IDLE]
  /\ appState (hooks w') = LISTENING
  /\ ~ lifecycle_edge (appState (hooks w)) (appState (hooks w')).
Proof.
  cbv zeta. split; [reflexivity|]. split; [reflexivity|].
  change (appState
            (hooks (run Pro restart_before_close (start initial))))
    with IDLE.
  change (appState
            (hooks
               (exec
                  (dispatch Pro second_browser
                     (SessionOpen second_stream second_context))
                  (run Pro restart_before_close (start initial)))))
    with LISTENING.
  unfold lifecycle_edge.
  intros [E|[[_ E]|[[E _]|[[E _]|[E _]]]]]; discriminate E.
Qed.

(* ================================================================== *)
(** * The header's buttons *)
(* ================================================================== *)

(** C8. Export with an empty transcript log creates no file, changes no
    state (log, draft, session state and everything else in the hooks
    are as before) and reports the empty-log notice, a non-empty message,
    to the user, which is all it does; with a non-empty log it renders
    the document and offers it for download, again without changing
    state. *)
Theorem export_of_empty_log_is_a_notice ed env w :
  (transcriptions (hooks w) = [] ->
   dispatch ed env SaveClick w
   = (Normal tt,
      {| hooks := hooks w;
         effects := effects w ++ [Alert (NOTHING_TO_SAVE ed)] |})
   /\ NOTHING_TO_SAVE ed <> []
   /\ filter creates_file (effects (exec (dispatch ed env SaveClick) w))
      = filter creates_file (effects w))
  /\ (transcriptions (hooks w) <> [] ->
      let dateStr := toLocaleDateString env (Date_now env) in
      let content :=
        join [] (map (render_segment ed env) (transcriptions (hooks w))) in
      dispatch ed env SaveClick w
      = (Normal tt,
         {| hooks := hooks w;
            effects :=
              effects w
              ++ [Download (download_name ed dateStr) MSWORD
                    [BOM; render_document ed dateStr content]] |})).
Proof.
  destruct w as [h fx]. cbn [dispatch hooks effects].
  unfold exec, saveAsWord, bind, read, emit. cbn [hooks effects snd].
  split.
  - intros E. rewrite E. cbn [length Nat.eqb snd effects].
    repeat split.
    + exact (proj2 (proj2 (messages_not_empty ed))).
    + rewrite filter_app. cbn. now rewrite app_nil_r.
  - intros N. destruct (transcriptions h) as [|t ts]; [contradiction|].
    reflexivity.
Qed.

Lemma export_of_empty_log_is_a_notice_witness :
  dispatch Scribe sample_browser SaveClick
    (start (with_currentDraft (lit "draft") initial))
  = (Normal tt,
     {| hooks := with_currentDraft (lit "draft") initial;
        effects := [Alert (NOTHING_TO_SAVE Scribe)] |}).
Proof.
  exact (proj1 (proj1 (export_of_empty_log_is_a_notice Scribe sample_browser
                         (start (with_currentDraft (lit "draft") initial)))
                  eq_refl)).
Defined.

Example export_names_the_file :
  map (fun e => match e with Download n _ _ => n | _ => [] end)
    (effects
       (exec (dispatch Scribe sample_browser SaveClick)
          (start (with_transcriptions [sample_segment] initial))))
  = [lit "Myanmar_Transcription_11-14-2023.doc"].
Proof. vm_compute. reflexivity. Qed.

Example copy_all_example :
  effects
    (exec (dispatch Pro sample_browser CopyClick)
       (start (with_transcriptions
                 [ sample_segment;
                   {| id := lit "0002"; text := lit "World";
                      timestamp := 1700000001000; type := user |} ]
                 initial)))
  = [ ClipboardWriteText (lit "Hello" ++ nl ++ lit "World");
      Alert (lit "Copied!") ].
Proof. vm_compute. reflexivity. Qed.

(** ** Clear-all *)

Lemma clearAll_run ed env w :
  dispatch ed env ClearClick w
  = (Normal tt,
     {| hooks :=
          if confirm env then
            match ed with
            | Pro => with_transcriptions [] (hooks w)
            | Scribe =>
              with_currentDraft [] (with_transcriptions [] (hooks w))
            end
          else hooks w;
        effects := effects w ++ [Confirm (CLEAR_PROMPT ed)] |}).
Proof.
  destruct w as [h fx]. cbn [dispatch]. unfold clearAll.
  destruct (confirm env), ed; reflexivity.
Qed.

(** Without the user's confirmation nothing is changed, in either
    listing; with it, the second listing empties the log and the draft. *)
Lemma clearAll_unconfirmed ed env w :
  confirm env = false ->
  hooks (exec (dispatch ed env ClearClick) w) = hooks w.
Proof. intros C. unfold exec. rewrite clearAll_run, C. reflexivity. Qed.

Lemma clearAll_confirmed_second_listing env w :
  confirm env = true ->
  let h' := hooks (exec (dispatch Scribe env ClearClick) w) in
  transcriptions h' = [] /\ currentDraft h' = [].
Proof.
  intros C h'. subst h'. unfold exec. rewrite clearAll_run, C.
  destruct w as [h fx]. now destruct h.
Qed.

(** The first listing's handler sets only the log, whatever the state. *)
Lemma clearAll_confirmed_first_listing env w :
  confirm env = true ->
  let h' := hooks (exec (dispatch Pro env ClearClick) w) in
  transcriptions h' = [] /\ currentDraft h' = currentDraft (hooks w).
Proof.
  intros C h'. subst h'. unfold exec. rewrite clearAll_run, C.
  destruct w as [h fx]. now destruct h.
Qed.

(** C9. The first listing's clear-all, confirmed by the user, with one
    segment logged and a draft pending: the log is emptied, the draft is
    still there.  On the same input the second listing's [clearAll]
    empties both. *)
Theorem clear_all_first_listing_keeps_draft :
  let h :=
    with_currentDraft (lit "pending")
      (with_transcriptions [sample_segment] initial) in
  let first := hooks (exec (dispatch Pro sample_browser ClearClick) (start h)) in
  let second :=
    hooks (exec (dispatch Scribe sample_browser ClearClick) (start h)) in
  confirm sample_browser = true
  /\ transcriptions first = [] /\ currentDraft first = lit "pending"
  /\ transcriptions second = [] /\ currentDraft second = [].
Proof. cbv zeta. repeat split. Qed.

(* ================================================================== *)
(** * The PCM frame encoder *)
(* ================================================================== *)

Section Encoder.

Import AudioUtils.
Local Open Scope float_scope.

(** A number above one is not below minus one. *)
Lemma above_one_not_below (x : float) :
  (1 <? x) = true -> (x <? -1) = false.
Proof.
  rewrite !ltb_spec.
  replace (Prim2SF 1) with (S754_finite false 4503599627370496 (-52))
    by (vm_compute; reflexivity).
  replace (Prim2SF (-1)) with (S754_finite true 4503599627370496 (-52))
    by (vm_compute; reflexivity).
  unfold SFltb, SFcompare.
  destruct (Prim2SF x) as [s|s| |s m e]; try destruct s; congruence.
Qed.

Lemma clamp_above (x : float) : (1 <? x) = true -> clamp x = 1.
Proof.
  intros H. unfold clamp. now rewrite (above_one_not_below x H), H.
Qed.

Lemma clamp_below (x : float) : (x <? -1) = true -> clamp x = -1.
Proof. intros H. unfold clamp. now rewrite H. Qed.

Lemma int16_le_bytes (v : Z) :
  exists lo hi,
    int16_le v = [lo; hi]
    /\ (0 <= lo < 256)%Z /\ (0 <= hi < 256)%Z
    /\ (-32768 <= int16_of_le lo hi <= 32767)%Z
    /\ ((-32768 <= v <= 32767)%Z -> int16_of_le lo hi = v).
Proof.
  unfold int16_le, int16_of_le.
  set (u := (v mod 65536)%Z).
  assert (U : (0 <= u < 65536)%Z) by (apply Z.mod_pos_bound; lia).
  exists (u mod 256)%Z, (u / 256)%Z. split; [reflexivity|].
  split; [apply Z.mod_pos_bound; lia|].
  split; [split; [apply Z.div_pos; lia | apply Z.div_lt_upper_bound; lia]|].
  assert (E : (u mod 256 + 256 * (u / 256) = u)%Z)
    by (rewrite (Z.div_mod u 256) at 3; lia).
  rewrite E. split.
  - destruct (Z.ltb_spec u 32768); lia.
  - intros R.
    assert (V : u = v \/ u = (v + 65536)%Z).
    { destruct (Z_lt_le_dec v 0) as [N|P].
      - right. unfold u. symmetry.
        apply (Z.mod_unique_pos _ _ (-1)); lia.
      - left. unfold u. apply Z.mod_small. lia. }
    destruct (Z.ltb_spec u 32768); lia.
Qed.

Lemma createPcmBlob_length (data : list float) :
  length (createPcmBlob data) = (2 * length data)%nat.
Proof.
  induction data as [|x data IH]; [reflexivity|].
  unfold createPcmBlob in *. cbn [flat_map]. rewrite length_app, IH.
  cbn [int16_le length]. lia.
Qed.

End Encoder.

(** C7. The encoder maps every sample to two bytes, a signed 16-bit
    integer in two's complement written low byte first, which read back
    as the sample's encoding whenever that is in range.  Sample 1.0
    encodes to 32767, sample -1.0 to -32768, sample 0.0 (of either sign)
    to 0; every sample that is not finite (NaN, either infinity) encodes
    to 0; a finite sample above 1.0 encodes as 1.0 does and one below
    -1.0 as -1.0 does. *)
Theorem pcm_encoder_contract :
  AudioUtils.encode_sample 1 = 32767%Z
  /\ AudioUtils.encode_sample (-1) = (-32768)%Z
  /\ AudioUtils.encode_sample 0 = 0%Z
  /\ AudioUtils.encode_sample (-0) = 0%Z
  /\ (forall x, is_finite x = false -> AudioUtils.encode_sample x = 0%Z)
  /\ (forall x, is_finite x = true -> (1 <? x)%float = true ->
      AudioUtils.encode_sample x = 32767%Z)
  /\ (forall x, is_finite x = true -> (x <? -1)%float = true ->
      AudioUtils.encode_sample x = (-32768)%Z)
  /\ (forall x,
      AudioUtils.createPcmBlob [x]
      = AudioUtils.int16_le (AudioUtils.encode_sample x))
  /\ (forall data,
      length (AudioUtils.createPcmBlob data) = 2 * length data)
  /\ (forall v,
      exists lo hi,
        AudioUtils.int16_le v = [lo; hi]
        /\ (0 <= lo < 256)%Z /\ (0 <= hi < 256)%Z
        /\ (-32768 <= AudioUtils.int16_of_le lo hi <= 32767)%Z
        /\ ((-32768 <= v <= 32767)%Z -> AudioUtils.int16_of_le lo hi = v))
  /\ AudioUtils.createPcmBlob [1; -1; 0; nan; infinity; 0.5]%float
     = [255; 127; 0; 128; 0; 0; 0; 0; 0; 0; 255; 63]%Z.
Proof.
  split; [reflexivity|]. split; [reflexivity|].
  split; [reflexivity|]. split; [reflexivity|].
  split; [intros x F; unfold AudioUtils.encode_sample; now rewrite F|].
  split.
  { intros x F H. unfold AudioUtils.encode_sample.
    rewrite F, (clamp_above x H). reflexivity. }
  split.
  { intros x F H. unfold AudioUtils.encode_sample.
    rewrite F, (clamp_below x H). reflexivity. }
  split.
  { intros x. unfold AudioUtils.createPcmBlob. cbn [flat_map].
    apply app_nil_r. }
  split; [exact createPcmBlob_length|].
  split; [exact int16_le_bytes | reflexivity].
Qed.


(* ================================================================== *)
(** * Further properties: the transcript over whole runs *)
(* ================================================================== *)

Section Transcript.

Variable ed : Edition.

Lemma startSession_keeps_transcript env w :
  currentDraft (hooks (exec (startSession ed env) w)) = currentDraft (hooks w)
  /\ transcriptions (hooks (exec (startSession ed env) w))
     = transcriptions (hooks w).
Proof.
  unfold exec, startSession, try_catch.
  destruct w as [h fx]; destruct h;
    destruct env as [? ? ? ? ? [|] [?| |] [?|] [?|]];
    destruct ed; split; reflexivity.
Qed.

Lemma toggle_keeps_transcript env w :
  currentDraft (hooks (exec (toggle_onClick ed env) w))
  = currentDraft (hooks w)
  /\ transcriptions (hooks (exec (toggle_onClick ed env) w))
     = transcriptions (hooks w).
Proof.
  rewrite toggle_run. destruct (appState (hooks w)).
  - apply startSession_keeps_transcript.
  - now split.
  - destruct (stopSession_keeps_transcript w) as (D & T & _). now split.
  - apply startSession_keeps_transcript.
Qed.

(** Every event but a message and clear-all leaves draft and log. *)
Lemma dispatch_keeps_transcript env ev w :
  match ev with
  | SessionMessage _ | ClearClick => True
  | _ =>
    currentDraft (hooks (exec (dispatch ed env ev) w))
    = currentDraft (hooks w)
    /\ transcriptions (hooks (exec (dispatch ed env ev) w))
       = transcriptions (hooks w)
  end.
Proof.
  destruct ev; cbn [dispatch]; try exact I.
  - apply toggle_keeps_transcript.
  - destruct w as [h fx]; now destruct h.
  - unfold exec, saveAsWord, bind, read.
    destruct w as [h fx]; destruct h as [s ts d e c m p n].
    cbn [hooks transcriptions]. now destruct (length ts =? 0)%nat.
  - destruct w as [h fx]; now destruct h.
  - rewrite onerror_run.
    destruct (stopSession_keeps_transcript
                {| hooks :=
                     with_errorMessage (Some (SESSION_MESSAGE ed)) (hooks w);
                   effects := effects w ++ [ConsoleError] |})
      as (D & T & _).
    rewrite D, T. destruct w as [h fx]; now destruct h.
  - destruct w as [h fx]; now destruct h.
  - unfold exec, onaudioprocess, bind, read.
    destruct w as [h fx]; destruct h as [s ts d e c m [[pi [se| |]]|] n];
      now split.
Qed.

(** How one event changes the log. *)
Lemma dispatch_log_step env ev w :
  let l := transcriptions (hooks w) in
  let l' := transcriptions (hooks (exec (dispatch ed env ev) w)) in
  l' = l
  \/ (confirmed_clear (env, ev) = true /\ l' = [])
  \/ (exists message,
        ev = SessionMessage message
        /\ turnComplete_of message = true
        /\ trim (currentDraft (hooks w) ++ fragment message) <> []
        /\ l' = l ++ [segment_of env
                        (currentDraft (hooks w) ++ fragment message)]).
Proof.
  intros l l'. subst l l'.
  pose proof (dispatch_keeps_transcript env ev w) as K.
  destruct ev; try (left; exact (proj2 K)).
  - unfold exec. rewrite clearAll_run. cbn [snd hooks confirmed_clear fst].
    destruct (confirm env).
    + right; left. split; [reflexivity|].
      destruct w as [h fx]; destruct h; now destruct ed.
    + now left.
  - unfold exec. cbn [dispatch]. rewrite onmessage_run. cbn [snd hooks].
    destruct (turnComplete_of message) eqn:C.
    + rewrite truthy_trim.
      destruct (forallb is_white_space
                  (currentDraft (hooks w) ++ fragment message)) eqn:W; cbn.
      * left. destruct w as [h fx]; now destruct h.
      * right; right. exists message.
        split; [reflexivity|]. split; [exact C|]. split.
        -- intros T. apply trim_white in T. congruence.
        -- destruct w as [h fx]; now destruct h.
    + left. destruct (inputTranscription_of message);
        destruct w as [h fx]; now destruct h.
Qed.

Lemma segment_of_trimmed env d :
  trim d <> [] -> trimmed_segment (segment_of env d).
Proof.
  intros T. unfold trimmed_segment, segment_of. cbn.
  split; [exact T|]. split; [apply trim_idempotent | reflexivity].
Qed.

Lemma messages_keep_log l : forall w,
  Forall within_turn l ->
  transcriptions (hooks (run ed (message_events l) w))
  = transcriptions (hooks w).
Proof.
  induction l as [|[env m] l IH]; intros w F; cbn [message_events map run];
    [reflexivity|].
  inversion F as [|? ? Hm Hl]; subst.
  fold (message_events l). rewrite IH by exact Hl.
  unfold exec. cbn [dispatch fst snd]. rewrite onmessage_run.
  unfold within_turn in Hm. cbn [snd] in Hm. rewrite Hm. cbn [snd hooks].
  destruct (inputTranscription_of m); destruct w as [h fx]; now destruct h.
Qed.

End Transcript.

(** X1. Across every run of the component, whatever the events and
    whatever the browser answers, the log holds only segments whose text
    is not empty, has no white space at its start or end, and whose type
    is [user], provided the log it started with did (the initial, empty
    log does). *)
Theorem logged_segments_are_trimmed ed evs : forall w,
  Forall trimmed_segment (transcriptions (hooks w)) ->
  Forall trimmed_segment (transcriptions (hooks (run ed evs w))).
Proof.
  induction evs as [|[env ev] evs IH]; intros w H; cbn [run]; [exact H|].
  apply IH.
  destruct (dispatch_log_step ed env ev w) as [E|[[_ E]|(m & _ & _ & T & E)]];
    rewrite E.
  - exact H.
  - constructor.
  - apply Forall_app. split; [exact H|].
    constructor; [now apply segment_of_trimmed | constructor].
Qed.

Lemma logged_segments_are_trimmed_witness :
  Forall trimmed_segment
    (transcriptions
       (hooks
          (run Scribe
             [ (sample_browser, ToggleClick);
               (sample_browser, SessionOpen sample_stream sample_context);
               (sample_browser, SessionMessage (partial_message "  one "));
               (sample_browser, SessionMessage turn_complete_message);
               (sample_browser, SessionMessage turn_complete_message);
               (second_browser, SessionMessage (partial_message " two"));
               (second_browser, SessionMessage turn_complete_message) ]
             (start initial)))).
Proof.
  apply (logged_segments_are_trimmed Scribe _ (start initial)).
  constructor.
Defined.

(** X2. The log is append-only between clearings: over a run in which
    no clear-all is confirmed, the log at the end is the log at the start
    followed by what was added, so no segment is removed, rewritten or
    reordered. *)
Theorem log_is_append_only ed evs : forall w,
  forallb (fun e => negb (confirmed_clear e)) evs = true ->
  exists new,
    transcriptions (hooks (run ed evs w)) = transcriptions (hooks w) ++ new
    /\ length new <= length evs.
Proof.
  induction evs as [|[env ev] evs IH]; intros w H; cbn [run].
  - exists []. now rewrite app_nil_r.
  - cbn [forallb] in H. apply andb_true_iff in H. destruct H as [Hc Hr].
    destruct (IH (exec (dispatch ed env ev) w) Hr) as (new & E & L).
    rewrite E.
    destruct (dispatch_log_step ed env ev w)
      as [S|[[C _]|(m & _ & _ & _ & S)]].
    + exists new. rewrite S. split; [reflexivity | cbn; lia].
    + rewrite C in Hc. discriminate.
    + exists (segment_of env (currentDraft (hooks w) ++ fragment m) :: new).
      rewrite S, <- app_assoc. split; [reflexivity | cbn; lia].
Qed.

Lemma log_is_append_only_witness :
  exists new,
    transcriptions
      (hooks
         (run Pro
            [ (sample_browser, SessionMessage (partial_message "World"));
              (sample_browser, ToggleClick);
              (sample_browser, SessionMessage turn_complete_message) ]
            (start (with_transcriptions [sample_segment] initial))))
    = [sample_segment] ++ new
    /\ length new <= 3.
Proof.
  exact (log_is_append_only Pro
           [ (sample_browser, SessionMessage (partial_message "World"));
             (sample_browser, ToggleClick);
             (sample_browser, SessionMessage turn_complete_message) ]
           (start (with_transcriptions [sample_segment] initial)) eq_refl).
Defined.

(** X3. Segment identifiers stay distinct: when the identifiers already
    in the log and the UUIDs the browser hands to the events of a run are
    pairwise distinct, so are the identifiers of the log after the run. *)
Theorem segment_ids_stay_distinct ed evs : forall w,
  NoDup (map id (transcriptions (hooks w)) ++ uuids evs) ->
  NoDup (map id (transcriptions (hooks (run ed evs w)))).
Proof.
  induction evs as [|[env ev] evs IH]; intros w H; cbn [run].
  - cbn in H. now rewrite app_nil_r in H.
  - apply IH. cbn [uuids flat_map] in H. fold (uuids evs) in H.
    assert (D : forall a b c : list jsstring, NoDup (a ++ b ++ c) ->
                NoDup (a ++ c)).
    { intros a b c. induction b as [|x b IHb]; [trivial|].
      intros N. apply IHb. exact (NoDup_remove_1 _ _ _ N). }
    destruct (dispatch_log_step ed env ev w)
      as [S|[[C S]|(m & -> & C & _ & S)]]; rewrite S.
    + exact (D _ _ _ H).
    + rewrite app_assoc in H.
      exact (D [] (map id (transcriptions (hooks w)) ++ uuid_for (env, ev))
               (uuids evs) H).
    + unfold uuid_for in H. cbn [snd fst] in H. rewrite C in H.
      rewrite map_app. cbn. now rewrite <- app_assoc.
Qed.

Lemma segment_ids_stay_distinct_witness :
  NoDup
    (map id
       (transcriptions
          (hooks
             (run Pro
                [ (sample_browser, SessionMessage (partial_message "one"));
                  (sample_browser, SessionMessage turn_complete_message);
                  (second_browser, SessionMessage (partial_message "two"));
                  (second_browser, SessionMessage turn_complete_message) ]
                (start (with_transcriptions [sample_segment] initial)))))).
Proof.
  apply (segment_ids_stay_distinct Pro _
           (start (with_transcriptions [sample_segment] initial))).
  vm_compute.
  repeat (constructor;
          [ cbn; intros F;
            repeat (destruct F as [F|F]; [discriminate F|]); exact F | ]).
  constructor.
Defined.

(** X4. A whole turn: from an empty draft, any number of messages that
    do not complete the turn, followed by one that does, log exactly one
    segment whose text is the trimmed concatenation of what the messages
    appended, the completing message's own included, when that is not
    empty, and log nothing when it is only white space; the draft is
    empty afterwards.  What a message appends is its transcription's
    text, the word [undefined] for a transcription without text, and
    nothing for a message without a transcription. *)
Theorem whole_turn_logs_trimmed_concatenation ed l env message w :
  currentDraft (hooks w) = [] ->
  Forall within_turn l ->
  turnComplete_of message = true ->
  let said := concat (map (fun e => fragment (snd e)) l) ++ fragment message in
  let w' :=
    run ed (message_events l ++ [(env, SessionMessage message)]) w in
  currentDraft (hooks w') = []
  /\ transcriptions (hooks w')
     = transcriptions (hooks w)
       ++ (if forallb is_white_space said then [] else [segment_of env said]).
Proof.
  intros E F C said w'. subst w'.
  assert (R : forall a b x, run ed (a ++ b) x = run ed b (run ed a x)).
  { induction a as [|[e1 e2] a IH]; intros b x; cbn [app run];
      [reflexivity | apply IH]. }
  rewrite R. cbn [run].
  set (w1 := run ed (message_events l) w).
  assert (D1 : currentDraft (hooks w1) ++ fragment message = said).
  { unfold w1, said. rewrite partials_accumulate by exact F.
    now rewrite E. }
  assert (T1 : transcriptions (hooks w1) = transcriptions (hooks w))
    by (apply messages_keep_log; exact F).
  unfold exec. cbn [dispatch]. rewrite onmessage_run, C, D1, T1.
  cbn [snd hooks]. rewrite truthy_trim.
  destruct (forallb is_white_space said); cbn.
  - rewrite app_nil_r. destruct w1 as [h fx]; destruct h; cbn in *.
    now split.
  - destruct w1 as [h fx]; destruct h; cbn in *. now split.
Qed.

Lemma whole_turn_logs_trimmed_concatenation_witness :
  map text
    (transcriptions
       (hooks
          (run Scribe
             (message_events
                [ (sample_browser, partial_message " good");
                  (sample_browser, partial_message " morning ") ]
              ++ [(sample_browser, SessionMessage turn_complete_message)])
             (start initial))))
  = [lit "good morning"].
Proof.
  destruct (whole_turn_logs_trimmed_concatenation Scribe
              [ (sample_browser, partial_message " good");
                (sample_browser, partial_message " morning ") ]
              sample_browser turn_complete_message (start initial)
              eq_refl) as [_ T].
  - repeat constructor.
  - reflexivity.
  - rewrite T. vm_compute. reflexivity.
Defined.

(** A transcription without text in the turn: the segment holds the
    word the handler appended for it. *)
Example textless_turn_logs_undefined :
  map text
    (transcriptions
       (hooks
          (run Pro
             (message_events
                [ (sample_browser, partial_message " good ");
                  (sample_browser, textless_message) ]
              ++ [(sample_browser, SessionMessage turn_complete_message)])
             (start initial))))
  = [lit "good undefined"].
Proof. vm_compute. reflexivity. Qed.

(** X5. Only messages and clear-all touch the transcript: every other
    event (the start/stop control, copy, export, the open, error and
    close callbacks, an audio block) leaves both the draft and the log
    exactly as they were, whatever the state and whatever the browser
    answers. *)
Theorem only_messages_and_clear_touch_transcript ed env ev w :
  match ev with
  | SessionMessage _ | ClearClick => True
  | _ =>
    currentDraft (hooks (exec (dispatch ed env ev) w))
    = currentDraft (hooks w)
    /\ transcriptions (hooks (exec (dispatch ed env ev) w))
       = transcriptions (hooks w)
  end.
Proof. apply dispatch_keeps_transcript. Qed.

(* ================================================================== *)
(** * Further properties: the resources of a session *)
(* ================================================================== *)

Lemma skipn_added {A} (a b : list A) : skipn (length a) (a ++ b) = b.
Proof. induction a as [|x a IH]; [reflexivity | exact IH]. Qed.

(** A start that succeeds, the session's opening and a stop, from any
    state in which the control starts: what the three handlers leave and
    what they asked for. *)
Lemma cycle_run ed env s c p se w :
  start_succeeds env s c p se ->
  appState (hooks w) = IDLE ->
  let node := {| bufferSize := buffer_size ed; context := c |} in
  run ed
    [ (env, ToggleClick); (env, SessionOpen s c); (env, ToggleClick) ] w
  = {| hooks := torn_down (with_errorMessage None (hooks w));
       effects :=
         effects w
         ++ [ GetUserMedia (audio_constraints ed);
              NewAudioContext SAMPLE_RATE;
              LiveConnect MODEL_NAME s c;
              ConnectProcessor node s;
              Disconnect node;
              StopTracks s;
              CloseContext c;
              CloseSession se ] |}.
Proof.
  intros (G & U & A & L & Cc & Sp) I node. subst node.
  destruct w as [h fx]; destruct h as [st ts d e cr m pr n].
  destruct env as [? ? ? ? ? g u a l]; destruct c as [ci cs];
    destruct p as [pi ps]; cbn in G, U, A, L, Cc, Sp, I; subst.
  cbn [run]. unfold exec. cbn [dispatch].
  unfold toggle_onClick, startSession, try_catch, startSession_try,
    detached, bind, read, stopSession, onopen.
  cbn. rewrite <- !app_assoc. reflexivity.
Qed.

(** What a [stopSession] that completes leaves and asked for. *)
Lemma completed_stop_releases_everything_aux w :
  teardown_completes (hooks w) = true ->
  hooks (exec stopSession w) = torn_down (hooks w)
  /\ effects (exec stopSession w) = effects w ++ release_effects (hooks w).
Proof.
  world_cases w; cbv [teardown_completes hooks audioContextRef
                      sessionPromiseRef close_settles settles fulfilled
                      andb];
    intros T; try discriminate T;
    (split; [reflexivity|]);
    cbn; rewrite <- ?app_assoc, ?app_nil_r; reflexivity.
Qed.

(** X6. When both of its awaits succeed, [stopSession] returns having
    released every resource a ref held, each once and in the order
    processor, microphone, audio context, session; it leaves every ref
    empty and the state [IDLE], and touches nothing else.  It is
    idempotent: called again on what it left, it asks for nothing and
    changes nothing. *)
Theorem completed_stop_releases_everything w :
  teardown_completes (hooks w) = true ->
  let w1 := exec stopSession w in
  completion stopSession w = Normal tt
  /\ hooks w1 = torn_down (hooks w)
  /\ effects w1 = effects w ++ release_effects (hooks w)
  /\ stopSession w1 = (Normal tt, w1).
Proof.
  world_cases w; cbv [teardown_completes hooks audioContextRef
                      sessionPromiseRef close_settles settles fulfilled
                      andb];
    intros T; try discriminate T; cbv zeta;
    (split; [reflexivity|]); (split; [reflexivity|]);
    (split; [cbn; rewrite <- ?app_assoc, ?app_nil_r; reflexivity
            | reflexivity]).
Qed.

Lemma completed_stop_releases_everything_witness :
  hooks (exec stopSession listening_world)
  = with_errorMessage None initial
  /\ skipn (length (effects listening_world))
       (effects (exec stopSession listening_world))
     = [ Disconnect {| bufferSize := 4096; context := sample_context |};
         StopTracks sample_stream;
         CloseContext sample_context;
         CloseSession sample_session ].
Proof.
  destruct (completed_stop_releases_everything listening_world eq_refl)
    as (_ & H & E & _).
  split; [exact H|]. rewrite E. apply skipn_added.
Defined.

(** X7. [stopSession] gives up at the first await that fails.  When the
    audio context the ref holds does not close, the processor and the
    microphone have been released, but the context and the session
    promise stay in their refs, the session is not closed and the state
    is not written.  When the context closes (or there is none) and the
    session promise is not fulfilled, everything but the session is
    released, the promise stays in its ref, and again no session is
    closed and the state is not written. *)
Theorem failed_teardown_stops_halfway w :
  let w1 := exec stopSession w in
  (forall c,
     audioContextRef (hooks w) = Some c ->
     fulfilled (close_settles c) = false ->
     completion stopSession w <> Normal tt
     /\ scriptProcessorRef (hooks w1) = None
     /\ streamRef (hooks w1) = None
     /\ audioContextRef (hooks w1) = Some c
     /\ sessionPromiseRef (hooks w1) = sessionPromiseRef (hooks w)
     /\ appState (hooks w1) = appState (hooks w)
     /\ filter closes_session (effects w1)
        = filter closes_session (effects w))
  /\ (forall p,
        match audioContextRef (hooks w) with
        | Some c => fulfilled (close_settles c) = true
        | None => True
        end ->
        sessionPromiseRef (hooks w) = Some p ->
        fulfilled (settles p) = false ->
        completion stopSession w <> Normal tt
        /\ scriptProcessorRef (hooks w1) = None
        /\ streamRef (hooks w1) = None
        /\ audioContextRef (hooks w1) = None
        /\ sessionPromiseRef (hooks w1) = Some p
        /\ appState (hooks w1) = appState (hooks w)
        /\ filter closes_session (effects w1)
           = filter closes_session (effects w)).
Proof.
  cbv zeta. split.
  - intros c R F.
    world_cases w; cbn in R; inversion R; subst; cbn in F;
      try discriminate F;
      (split; [discriminate|]); repeat (split; [reflexivity|]);
      cbn; rewrite <- ?app_assoc, ?filter_app; cbn;
      rewrite ?app_nil_r; reflexivity.
  - intros p C R F.
    world_cases w; cbn in R; inversion R; subst; cbn in F, C;
      try discriminate F; try discriminate C;
      (split; [discriminate|]); repeat (split; [reflexivity|]);
      cbn; rewrite <- ?app_assoc, ?filter_app; cbn;
      rewrite ?app_nil_r; reflexivity.
Qed.

Lemma failed_teardown_stops_halfway_witness :
  let w1 := exec stopSession stubborn_world in
  streamRef (hooks w1) = None
  /\ audioContextRef (hooks w1) = Some failing_context
  /\ sessionPromiseRef (hooks w1) = Some sample_promise
  /\ appState (hooks w1) = LISTENING.
Proof.
  destruct (failed_teardown_stops_halfway stubborn_world) as [F _].
  destruct (F failing_context eq_refl eq_refl)
    as (_ & _ & S & A & P & L & _).
  cbv zeta. split; [exact S|]. split; [exact A|]. split; [exact P|exact L].
Defined.

(** X8. A start that fails after the microphone was granted (the audio
    context or the session request cannot be made) ends in [IDLE] with
    the microphone message shown, while the granted stream is still in
    its ref and none of its tracks was stopped: the [catch] block
    releases nothing. *)
Theorem failed_start_keeps_microphone ed env s w :
  fails_after_grant env s ->
  let w1 := exec (startSession ed env) w in
  appState (hooks w1) = IDLE
  /\ errorMessage (hooks w1) = Some (MICROPHONE_MESSAGE ed)
  /\ streamRef (hooks w1) = Some s
  /\ filter stops_tracks (effects w1) = filter stops_tracks (effects w).
Proof.
  intros (G & U & F) w1. subst w1.
  unfold exec, startSession, try_catch.
  destruct w as [h fx]; destruct h;
    destruct env as [? ? ? ? ? g u [a|] [l|]];
    cbn in G, U, F; subst; try (destruct F; discriminate);
    destruct ed;
    (split; [reflexivity|]); (split; [reflexivity|]);
    (split; [reflexivity|]);
    cbn; rewrite <- ?app_assoc, ?filter_app; cbn;
    rewrite ?app_nil_r; reflexivity.
Qed.

Lemma failed_start_keeps_microphone_witness :
  let w1 :=
    exec (dispatch Pro contextless_browser ToggleClick) (start initial) in
  appState (hooks w1) = IDLE
  /\ streamRef (hooks w1) = Some sample_stream
  /\ filter stops_tracks (effects w1) = [].
Proof.
  destruct (failed_start_keeps_microphone Pro contextless_browser
              sample_stream (start initial))
    as (I & _ & S & T).
  - split; [reflexivity|]. split; [reflexivity|]. now left.
  - cbv zeta. split; [exact I|]. split; [exact S | exact T].
Defined.

(** X9. A whole session: from [IDLE], a click that starts successfully,
    the session's opening and a click that stops leave every ref empty,
    the state [IDLE] and no message shown, with draft and log untouched;
    and everything the start and the opening acquired (microphone, audio
    context, session, processor) is released by the stop, in the effects
    listed. *)
Theorem session_cycle_releases_what_it_opened ed env s c p se w :
  start_succeeds env s c p se ->
  appState (hooks w) = IDLE ->
  let node := {| bufferSize := buffer_size ed; context := c |} in
  let w3 :=
    run ed
      [ (env, ToggleClick); (env, SessionOpen s c); (env, ToggleClick) ]
      w in
  hooks w3 = torn_down (with_errorMessage None (hooks w))
  /\ effects w3
     = effects w
       ++ [ GetUserMedia (audio_constraints ed);
            NewAudioContext SAMPLE_RATE;
            LiveConnect MODEL_NAME s c;
            ConnectProcessor node s;
            Disconnect node;
            StopTracks s;
            CloseContext c;
            CloseSession se ].
Proof.
  intros S I node w3. subst w3 node.
  rewrite (cycle_run ed env s c p se w S I). split; reflexivity.
Qed.

Lemma session_cycle_releases_what_it_opened_witness :
  hooks
    (run Scribe
       [ (sample_browser, ToggleClick);
         (sample_browser, SessionOpen sample_stream sample_context);
         (sample_browser, ToggleClick) ]
       (start (with_currentDraft (lit "kept") initial)))
  = with_currentDraft (lit "kept") initial.
Proof.
  exact (proj1 (session_cycle_releases_what_it_opened Scribe
                  sample_browser sample_stream sample_context
                  sample_promise sample_session
                  (start (with_currentDraft (lit "kept") initial))
                  (conj eq_refl
                     (conj eq_refl
                        (conj eq_refl
                           (conj eq_refl (conj eq_refl eq_refl)))))
                  eq_refl)).
Defined.

(** X10. A close event sets [IDLE] and releases nothing: the microphone
    stream stays in its ref, and nothing is asked of the browser.  A
    start, opening and stop that follow replace and release their own
    stream only: none of their effects stops the tracks of the stream
    the close event left behind, and afterwards no ref holds it, so no
    later [stopSession] can stop it either. *)
Theorem restart_after_close_abandons_capture ed env0 env s0 s c p se w :
  streamRef (hooks w) = Some s0 ->
  s0 <> s ->
  start_succeeds env s c p se ->
  let w1 := exec (dispatch ed env0 SessionClose) w in
  let w4 :=
    run ed
      [ (env, ToggleClick); (env, SessionOpen s c); (env, ToggleClick) ]
      w1 in
  (appState (hooks w1) = IDLE
   /\ streamRef (hooks w1) = Some s0
   /\ effects w1 = effects w)
  /\ ~ In (StopTracks s0) (skipn (length (effects w)) (effects w4))
  /\ release_effects (hooks w4) = [].
Proof.
  intros R N S w1 w4.
  assert (H1 : appState (hooks w1) = IDLE /\ streamRef (hooks w1) = Some s0
               /\ effects w1 = effects w).
  { subst w1. destruct w as [h fx]; destruct h; cbn in R |- *. now subst. }
  split; [exact H1|]. destruct H1 as (I & _ & E).
  subst w4. rewrite (cycle_run ed env s c p se w1 S I). cbn [effects hooks].
  rewrite E, skipn_added. split; [|reflexivity].
  intros F. cbn in F.
  repeat (destruct F as [F|F]; [try discriminate F|]); [|exact F].
  inversion F. congruence.
Qed.

Lemma restart_after_close_abandons_capture_witness :
  let w1 := exec (dispatch Pro sample_browser SessionClose) listening_world in
  let w4 :=
    run Pro
      [ (second_browser, ToggleClick);
        (second_browser, SessionOpen second_stream second_context);
        (second_browser, ToggleClick) ]
      w1 in
  streamRef (hooks w1) = Some sample_stream
  /\ ~ In (StopTracks sample_stream)
         (skipn (length (effects listening_world)) (effects w4))
  /\ release_effects (hooks w4) = [].
Proof.
  destruct (restart_after_close_abandons_capture Pro sample_browser
              second_browser sample_stream second_stream second_context
              second_promise second_session listening_world eq_refl)
    as ((_ & S & _) & N & R).
  - discriminate.
  - repeat split.
  - cbv zeta. split; [exact S|]. split; [exact N | exact R].
Defined.

(** X11. An audio block never changes the component's state, and sends
    at most one frame: to the session the stored promise is fulfilled
    with.  With no promise stored, or one that is pending or rejected,
    the block is dropped; in particular, after a [stopSession] that
    completed, no block is sent any more. *)
Theorem audio_block_goes_only_to_an_open_session ed env data w :
  let w1 := exec (dispatch ed env (AudioProcess data)) w in
  hooks w1 = hooks w
  /\ (effects w1 = effects w
      \/ exists p se,
           sessionPromiseRef (hooks w) = Some p
           /\ settles p = Fulfilled se
           /\ effects w1
              = effects w
                ++ [SendRealtimeInput se (AudioUtils.createPcmBlob data)])
  /\ (match sessionPromiseRef (hooks w) with
      | Some p => fulfilled (settles p) = false
      | None => True
      end -> effects w1 = effects w)
  /\ (teardown_completes (hooks w) = true ->
      exec (dispatch ed env (AudioProcess data)) (exec stopSession w)
      = exec stopSession w).
Proof.
  cbv zeta. cbn [dispatch]. unfold onaudioprocess.
  split; [|split; [|split]].
  - destruct w as [h fx]; destruct h as [s ts d e c m [[pi [se| |]]|] n];
      reflexivity.
  - destruct w as [h fx]; destruct h as [s ts d e c m [[pi [se| |]]|] n];
      try (left; reflexivity).
    right. exists {| promise_id := pi; settles := Fulfilled se |}, se.
    repeat split.
  - destruct w as [h fx]; destruct h as [s ts d e c m [[pi [se| |]]|] n];
      cbn; intros F; try discriminate F; reflexivity.
  - intros T.
    destruct (completed_stop_releases_everything_aux w T) as [H _].
    destruct (exec stopSession w) as [h1 fx1]. cbn in H. subst h1.
    reflexivity.
Qed.

(* ================================================================== *)
(** * Further properties: the message, the control, the buttons *)
(* ================================================================== *)

Lemma startSession_message ed env w :
  errorMessage (hooks (exec (startSession ed env) w)) = None
  \/ errorMessage (hooks (exec (startSession ed env) w))
     = Some (MICROPHONE_MESSAGE ed).
Proof.
  unfold exec, startSession, try_catch.
  destruct w as [h fx]; destruct h;
    destruct env as [? ? ? ? ? [|] [?| |] [?|] [?|]];
    destruct ed; cbn; auto.
Qed.

(** Which events write the message, and what. *)
Lemma dispatch_message_step ed env ev w :
  let m := errorMessage (hooks w) in
  let m' := errorMessage (hooks (exec (dispatch ed env ev) w)) in
  match ev with
  | SessionError => m' = Some (SESSION_MESSAGE ed)
  | ToggleClick =>
    match appState (hooks w) with
    | CONNECTING | LISTENING => m' = m
    | IDLE | ERROR => m' = None \/ m' = Some (MICROPHONE_MESSAGE ed)
    end
  | _ => m' = m
  end.
Proof.
  cbv zeta. destruct ev; cbn [dispatch].
  - rewrite toggle_run. destruct (appState (hooks w)).
    + apply startSession_message.
    + reflexivity.
    + apply stopSession_keeps_transcript.
    + apply startSession_message.
  - destruct w as [h fx]; now destruct h.
  - unfold exec, saveAsWord, bind, read.
    destruct w as [h fx]; destruct h as [s ts d e c m p n].
    cbn [hooks transcriptions]. now destruct (length ts =? 0)%nat.
  - unfold exec, clearAll.
    destruct w as [h fx]; destruct h.
    destruct (confirm env), ed; reflexivity.
  - destruct w as [h fx]; now destruct h.
  - unfold exec. rewrite onmessage_run. cbn [snd hooks].
    destruct w as [h fx]; destruct h.
    destruct (turnComplete_of message), (inputTranscription_of message);
      try destruct (truthy _); reflexivity.
  - rewrite onerror_run.
    destruct (stopSession_keeps_transcript
                {| hooks :=
                     with_errorMessage (Some (SESSION_MESSAGE ed)) (hooks w);
                   effects := effects w ++ [ConsoleError] |})
      as (_ & _ & E).
    rewrite E. destruct w as [h fx]; now destruct h.
  - destruct w as [h fx]; now destruct h.
  - unfold exec, onaudioprocess, bind, read.
    destruct w as [h fx]; destruct h as [s ts d e c m [[pi [se| |]]|] n];
      reflexivity.
Qed.

(** X12. Across every run, the message the component shows is null or
    one of the listing's two fixed messages (the session message, the
    microphone message), provided it was so at the start; so a message
    that is set is never the empty string, and the banner, which is
    rendered when the message is truthy, shows exactly when a message is
    set. *)
Theorem shown_message_is_one_of_two ed evs : forall w,
  shown_message ed (errorMessage (hooks w)) ->
  shown_message ed (errorMessage (hooks (run ed evs w)))
  /\ (forall m, errorMessage (hooks (run ed evs w)) = Some m ->
      truthy m = true).
Proof.
  assert (T : forall m, shown_message ed (Some m) -> truthy m = true).
  { intros m [H|[H|H]]; [discriminate H| |]; inversion H; destruct ed;
      reflexivity. }
  induction evs as [|[env ev] evs IH]; intros w H; cbn [run].
  - split; [exact H|]. intros m E. apply T. now rewrite <- E.
  - apply IH. pose proof (dispatch_message_step ed env ev w) as S.
    cbv zeta in S. unfold shown_message in *.
    destruct ev; try (rewrite S; exact H).
    + destruct (appState (hooks w)); try (rewrite S; exact H);
        destruct S as [S|S]; rewrite S;
        [now left | right; right; reflexivity
        | now left | right; right; reflexivity].
    + rewrite S. right; left. reflexivity.
Qed.

Lemma shown_message_is_one_of_two_witness :
  shown_message Pro
    (errorMessage
       (hooks
          (run Pro
             [ (sample_browser, SessionError);
               (denying_browser, ToggleClick);
               (sample_browser, ToggleClick) ]
             listening_world))).
Proof.
  apply (shown_message_is_one_of_two Pro
           [ (sample_browser, SessionError);
             (denying_browser, ToggleClick);
             (sample_browser, ToggleClick) ]
           listening_world).
  now left.
Defined.

(** X13. A message, once shown, stays: only an error event sets the
    session message, and only a click that starts a session (the state
    being neither [CONNECTING] nor [LISTENING]) clears the message or
    sets the microphone message.  Every other event, a click that stops
    the session included, leaves the message as it was. *)
Theorem message_stays_until_next_start ed env ev w :
  let m := errorMessage (hooks w) in
  let m' := errorMessage (hooks (exec (dispatch ed env ev) w)) in
  match ev with
  | SessionError => m' = Some (SESSION_MESSAGE ed)
  | ToggleClick =>
    match appState (hooks w) with
    | CONNECTING | LISTENING => m' = m
    | IDLE | ERROR => m' = None \/ m' = Some (MICROPHONE_MESSAGE ed)
    end
  | _ => m' = m
  end.
Proof. apply dispatch_message_step. Qed.

(** X14. The name of the exported file.  In the second listing every
    slash of the locale's date is replaced by a hyphen, so the name holds
    no slash, whatever the date looks like; in the first listing the
    date goes into the name as it is, so the name holds a slash whenever
    the date does.  In both, the name has the date's length plus that of
    the fixed prefix and extension. *)
Theorem export_file_name_and_slashes date :
  ~ In SLASH (download_name Scribe date)
  /\ (In SLASH date -> In SLASH (download_name Pro date))
  /\ (forall ed, length (download_name ed date) = 26 + length date).
Proof.
  split; [|split].
  - unfold download_name. cbn [concat]. rewrite app_nil_r.
    intros H. apply in_app_or in H. destruct H as [H|H].
    + vm_compute in H. repeat (destruct H as [H|H]; [discriminate H|]).
      exact H.
    + apply in_app_or in H. destruct H as [H|H].
      * unfold replaceAll in H. apply in_map_iff in H.
        destruct H as (x & E & _). unfold SLASH in E.
        destruct (N.eqb_spec x 47) as [Hx|Hx];
          [discriminate E | congruence].
      * vm_compute in H. repeat (destruct H as [H|H]; [discriminate H|]).
        exact H.
  - intros H. unfold download_name. cbn [concat].
    apply in_or_app. right. apply in_or_app. now left.
  - intros ed. destruct ed; unfold download_name, replaceAll; cbn [concat];
      rewrite !length_app, ?length_map; cbn [length];
      change (length (lit "Myanmar_Transcription_")) with 22;
      change (length (lit ".doc")) with 4; unfold code_unit; lia.
Qed.

(** X15. Copy-all never changes the component's state and has no guard
    for an empty log: it always writes to the clipboard, then reports
    success.  What it writes is the texts of the log in order with one
    line feed between neighbours and none at the end: the empty string
    for an empty log, and, for a log that is not empty, what was written
    before one more segment was logged, a line feed, and that segment's
    text. *)
Theorem copy_all_writes_the_log ed env w :
  let copied l := ClipboardWriteText (join nl (map text l)) in
  dispatch ed env CopyClick w
  = (Normal tt,
     {| hooks := hooks w;
        effects :=
          effects w ++ [copied (transcriptions (hooks w)); Alert (COPIED ed)]
     |})
  /\ copied [] = ClipboardWriteText []
  /\ (forall l t,
      l <> [] ->
      copied (l ++ [t])
      = ClipboardWriteText (join nl (map text l) ++ nl ++ text t)).
Proof.
  cbv zeta. split; [|split].
  - destruct w as [h fx]. cbn [dispatch]. unfold copyAllText, bind, read, emit.
    cbn. now rewrite <- app_assoc.
  - reflexivity.
  - intros l t N. f_equal.
    induction l as [|x l IH]; [contradiction|].
    destruct l as [|y l].
    + reflexivity.
    + cbn [app map join] in *. rewrite IH by discriminate.
      now rewrite <- !app_assoc.
Qed.

(** X16. An error event while [CONNECTING] whose teardown does not
    complete (the session promise is still pending or was rejected, or
    the audio context does not close) shows the session message and
    leaves the state [CONNECTING]; the start/stop control, disabled in
    that state, then does nothing however often it is clicked. *)
Theorem error_while_connecting_disables_control ed env w :
  appState (hooks w) = CONNECTING ->
  teardown_completes (hooks w) = false ->
  let w1 := exec (dispatch ed env SessionError) w in
  appState (hooks w1) = CONNECTING
  /\ errorMessage (hooks w1) = Some (SESSION_MESSAGE ed)
  /\ (forall clicks,
      Forall (fun e => snd e = ToggleClick) clicks ->
      run ed clicks w1 = w1).
Proof.
  intros C T w1.
  assert (S : appState (hooks w1) = CONNECTING).
  { subst w1. cbn [dispatch]. rewrite onerror_run, stopSession_appState.
    replace (teardown_completes _) with (teardown_completes (hooks w))
      by (destruct w as [h fx]; now destruct h).
    rewrite T. destruct w as [h fx]; destruct h; exact C. }
  split; [exact S|]. split.
  - pose proof (dispatch_message_step ed env SessionError w) as M.
    exact M.
  - induction clicks as [|[env' ev] clicks IH]; intros F; [reflexivity|].
    inversion F as [|? ? E F']; subst. cbn [snd] in E. subst ev.
    cbn [run dispatch]. rewrite toggle_run, S. exact (IH F').
Qed.

Lemma error_while_connecting_disables_control_witness :
  let w := exec (dispatch Pro silent_service ToggleClick) (start initial) in
  let w1 := exec (dispatch Pro silent_service SessionError) w in
  appState (hooks w1) = CONNECTING
  /\ run Pro [(sample_browser, ToggleClick); (sample_browser, ToggleClick)] w1
     = w1.
Proof.
  destruct (error_while_connecting_disables_control Pro silent_service
              (exec (dispatch Pro silent_service ToggleClick) (start initial))
              eq_refl eq_refl) as (S & _ & K).
  cbv zeta. split; [exact S|]. apply K. repeat constructor.
Defined.

(* ================================================================== *)
(** * Further properties: one session at a time *)
(* ================================================================== *)

Lemma counted_app (f : Effect -> bool) (a b : list Effect) :
  length (filter f (a ++ b)) = length (filter f a) + length (filter f b).
Proof. now rewrite filter_app, length_app. Qed.

Lemma stopSession_keeps_one_session w :
  one_session w -> one_session (exec stopSession w).
Proof.
  intros (B & T & _).
  destruct (completed_stop_releases_everything_aux w T) as [H E].
  unfold one_session, sessions_opened, sessions_closed in *.
  rewrite H, E, !counted_app. cbn [hooks].
  split; [|split; [reflexivity | intros N; now contradiction N]].
  revert B T. world_cases w; cbn; intros B T; try discriminate T; lia.
Qed.

Lemma startSession_keeps_one_session ed env w :
  dependable env ->
  sessionPromiseRef (hooks w) = None ->
  one_session w -> one_session (exec (startSession ed env) w).
Proof.
  intros [Dc (p & se & Dl & Ds)] P (B & T & _).
  unfold one_session, sessions_opened, sessions_closed, exec, startSession,
    try_catch in *.
  destruct w as [h fx]; destruct h as [st ts d e c m pr n].
  cbn in P. subst pr.
  destruct env as [? ? ? ? ? g u a l]. cbn in Dc, Dl. subst l.
  destruct p as [pi ps]. cbn in Ds. subst ps.
  destruct g, u as [s| |], a as [[ci cs]|];
    try (specialize (Dc _ eq_refl); cbn in Dc; subst cs);
    destruct ed; cbn in *;
    rewrite ?counted_app; cbn;
    (split; [lia | split; [assumption || reflexivity | ]]);
    intros N; try (now contradiction N); auto.
Qed.

Lemma dispatch_keeps_one_session ed env ev w :
  dependable env ->
  ev <> SessionClose ->
  one_session w -> one_session (exec (dispatch ed env ev) w).
Proof.
  intros D N O. destruct ev; cbn [dispatch].
  - rewrite toggle_run. destruct (appState (hooks w)) eqn:S.
    + apply startSession_keeps_one_session; [exact D| |exact O].
      destruct (sessionPromiseRef (hooks w)) eqn:P; [|reflexivity].
      destruct O as (_ & _ & O).
      destruct O as [O|O]; [congruence | congruence | congruence].
    + exact O.
    + now apply stopSession_keeps_one_session.
    + apply startSession_keeps_one_session; [exact D| |exact O].
      destruct (sessionPromiseRef (hooks w)) eqn:P; [|reflexivity].
      destruct O as (_ & _ & O).
      destruct O as [O|O]; [congruence | congruence | congruence].
  - destruct O as (B & T & S).
    unfold one_session, sessions_opened, sessions_closed, holds_session,
      teardown_completes in *.
    destruct w as [h fx]; destruct h. cbn in *.
    rewrite <- !app_assoc, !counted_app. cbn. repeat split; auto; lia.
  - destruct O as (B & T & S).
    unfold one_session, sessions_opened, sessions_closed, holds_session,
      teardown_completes, exec, saveAsWord, bind, read in *.
    destruct w as [h fx]; destruct h as [st ts d e c m p n]. cbn in *.
    destruct (length ts =? 0)%nat; cbn; rewrite !counted_app; cbn;
      repeat split; auto; lia.
  - destruct O as (B & T & S).
    unfold one_session, sessions_opened, sessions_closed, holds_session,
      teardown_completes, exec, clearAll in *.
    destruct w as [h fx]; destruct h.
    destruct (confirm env), ed; cbn in *; rewrite ?counted_app; cbn;
      repeat split; auto; lia.
  - destruct O as (B & T & S).
    unfold one_session, sessions_opened, sessions_closed, holds_session,
      teardown_completes in *.
    destruct w as [h fx]; destruct h. cbn in *.
    rewrite !counted_app. cbn. repeat split; auto; lia.
  - destruct O as (B & T & S).
    unfold one_session, sessions_opened, sessions_closed, holds_session,
      teardown_completes in *.
    unfold exec. rewrite onmessage_run. cbn [snd hooks effects].
    destruct w as [h fx]; destruct h. cbn in *.
    destruct (turnComplete_of message), (inputTranscription_of message);
      try destruct (truthy _); cbn; repeat split; auto.
  - rewrite onerror_run. apply stopSession_keeps_one_session.
    destruct O as (B & T & S).
    unfold one_session, sessions_opened, sessions_closed, holds_session,
      teardown_completes in *.
    destruct w as [h fx]; destruct h. cbn in *.
    rewrite !counted_app. cbn. repeat split; auto; lia.
  - now contradiction N.
  - destruct O as (B & T & S).
    unfold one_session, sessions_opened, sessions_closed, holds_session,
      teardown_completes, exec, onaudioprocess, bind, read in *.
    destruct w as [h fx]; destruct h as [st ts d e c m [[pi [se| |]]|] n];
      cbn in *; rewrite ?counted_app; cbn; repeat split; auto; lia.
Qed.

(** X17. One session at a time.  In a browser whose audio contexts close
    and whose session requests are answered, and as long as no close
    event arrives, every run from the initial state keeps this: each
    session requested has been closed again, but for the one the
    component holds, and it holds one only while [CONNECTING] or
    [LISTENING].  So at no point have two more sessions been requested
    than closed. *)
Theorem one_session_at_a_time ed evs : forall w,
  one_session w ->
  Forall (fun e => dependable (fst e) /\ snd e <> SessionClose) evs ->
  one_session (run ed evs w)
  /\ sessions_opened (run ed evs w) <= sessions_closed (run ed evs w) + 1.
Proof.
  assert (L : forall w, one_session w ->
                        sessions_opened w <= sessions_closed w + 1).
  { intros w (B & _). rewrite B. unfold holds_session.
    destruct (sessionPromiseRef (hooks w)); lia. }
  induction evs as [|[env ev] evs IH]; intros w O F; cbn [run].
  - split; [exact O | now apply L].
  - inversion F as [|? ? [D N] F']; subst. cbn [fst snd] in D, N.
    apply IH; [|exact F']. now apply dispatch_keeps_one_session.
Qed.

Lemma one_session_at_a_time_witness :
  let w :=
    run Pro
      [ (sample_browser, ToggleClick);
        (sample_browser, SessionOpen sample_stream sample_context);
        (sample_browser, SessionError);
        (second_browser, ToggleClick);
        (second_browser, SessionOpen second_stream second_context);
        (second_browser, ToggleClick);
        (sample_browser, ToggleClick) ]
      (start initial) in
  sessions_opened w <= sessions_closed w + 1.
Proof.
  assert (D1 : dependable sample_browser).
  { split.
    - intros c E. inversion E. reflexivity.
    - exists sample_promise, sample_session. now split. }
  assert (D2 : dependable second_browser).
  { split.
    - intros c E. inversion E. reflexivity.
    - exists second_promise, second_session. now split. }
  apply (one_session_at_a_time Pro
           [ (sample_browser, ToggleClick);
             (sample_browser, SessionOpen sample_stream sample_context);
             (sample_browser, SessionError);
             (second_browser, ToggleClick);
             (second_browser, SessionOpen second_stream second_context);
             (second_browser, ToggleClick);
             (sample_browser, ToggleClick) ]
           (start initial)).
  - split; [reflexivity|]. split; [reflexivity|].
    intros N. now contradiction N.
  - repeat (constructor; [split; [assumption | discriminate]|]).
    constructor.
Defined.

(** Without the proviso it fails: after a close event the component is
    [IDLE] with its session still held, and the next start requests a
    second one. *)
Example two_sessions_after_a_close_event :
  let w :=
    run Pro
      [ (sample_browser, SessionClose); (second_browser, ToggleClick) ]
      listening_world in
  sessions_opened w = 2 /\ sessions_closed w = 0.
Proof. cbv zeta. split; reflexivity. Qed.
